(** * Verification of the tourism agent (tourism_agent.py)

    A shallow embedding of the rule-based intent extraction
    ([TourismParentAgent._extract_place], [_analyze_intent]), of the
    orchestrator ([process_query]) and of the places list construction
    ([PlacesAgent.get_tourist_attractions]), with the properties the
    specification states about them.

    Text.  A Python [str] is modelled as the list of its UTF-8 bytes.
    Case mapping ([lower], [title]), the upper-case test and the
    white-space test are Python's on the ASCII range; bytes above 127 are
    left unchanged and are neither cased nor white space.  On ASCII text
    byte offsets and Python's character offsets coincide, and the model
    and Python agree; outside ASCII Python also lower-cases and
    recognises letters and white space of other scripts (and lower-cases
    U+0130 to two characters).  The properties that depend on case, on
    white space or on offsets found in the lower-cased text are
    therefore stated for ASCII text.

    Exceptions.  Operations that can raise in Python (indexing a string,
    subscripting a JSON object with a missing key) return in the
    [result] monad; [try]/[except] is a match on it.

    Output.  The [print] calls only write progress lines to the terminal
    and are left out. *)

From Stdlib Require Import Ascii String ZArith DecimalString.
From stdpp Require Import base option list gmap strings.

Open Scope Z_scope.

(** ** Python strings *)
Module PyStr.

(** The type of strings; an abbreviation, so that the list lemmas apply
    to it directly. *)
Abbreviation str := (list ascii).

(** A literal of the source. *)
Definition lit (s : string) : str := list_ascii_of_string s.

Definition code (c : ascii) : Z := Z.of_N (N_of_ascii c).

(** [c.isupper()] on one ASCII character. *)
Definition is_upper_char (c : ascii) : bool :=
  (65 <=? code c) && (code c <=? 90).

Definition is_lower_char (c : ascii) : bool :=
  (97 <=? code c) && (code c <=? 122).

(** [c.isspace()] on one ASCII character: tab, line feed, vertical tab,
    form feed, carriage return, the four separators 0x1c..0x1f and the
    space. *)
Definition is_space (c : ascii) : bool :=
  ((9 <=? code c) && (code c <=? 13))
  || ((28 <=? code c) && (code c <=? 32)).

Definition lower_char (c : ascii) : ascii :=
  if is_upper_char c then ascii_of_N (Z.to_N (code c + 32)) else c.

Definition upper_char (c : ascii) : ascii :=
  if is_lower_char c then ascii_of_N (Z.to_N (code c - 32)) else c.

(** [s.lower()], character by character on the ASCII letters. *)
Definition lower (s : str) : str := map lower_char s.

(** [len(s)] *)
Definition len (s : str) : Z := Z.of_nat (length s).

(** [s.startswith(d)] *)
Fixpoint starts_with (d s : str) : bool :=
  match d, s with
  | [], _ => true
  | _ :: _, [] => false
  | a :: d', b :: s' => if decide (a = b) then starts_with d' s' else false
  end.

(** Lowest offset at which [d] occurs in [s], if any. *)
Fixpoint index_of (d s : str) : option nat :=
  if starts_with d s then Some 0%nat
  else match s with
       | [] => None
       | _ :: s' => S <$> index_of d s'
       end.

(** [s.find(d)]: the lowest offset, or -1. *)
Definition find (d s : str) : Z :=
  match index_of d s with
  | Some p => Z.of_nat p
  | None => -1
  end.

(** [d in s] *)
Definition contains (d s : str) : bool :=
  match index_of d s with
  | Some _ => true
  | None => false
  end.

(** Python's clamping of a slice bound: a negative bound counts from the
    end, and the result is kept inside [0, len s]. *)
Definition clamp (s : str) (i : Z) : nat :=
  Z.to_nat (Z.min (len s) (if i <? 0 then Z.max 0 (len s + i) else i)).

(** [s[i:]] *)
Definition slice_from (s : str) (i : Z) : str := drop (clamp s i) s.

(** [s[:i]] *)
Definition slice_to (s : str) (i : Z) : str := take (clamp s i) s.

Fixpoint drop_while (p : ascii -> bool) (s : str) : str :=
  match s with
  | [] => []
  | c :: s' => if p c then drop_while p s' else s
  end.

Definition lstrip_by (p : ascii -> bool) (s : str) : str := drop_while p s.

Definition rstrip_by (p : ascii -> bool) (s : str) : str :=
  rev (drop_while p (rev s)).

(** [s.strip()] *)
Definition strip (s : str) : str := rstrip_by is_space (lstrip_by is_space s).

Definition mem_char (chars : str) (c : ascii) : bool :=
  bool_decide (c ∈ chars).

(** [s.strip(chars)] *)
Definition strip_chars (chars s : str) : str :=
  rstrip_by (mem_char chars) (lstrip_by (mem_char chars) s).


(** [s.split()]: the maximal runs of non-space characters.  [cur] is the
    run being read, in reverse. *)
Fixpoint split_from (cur s : str) : list str :=
  match s with
  | [] => match cur with [] => [] | _ => [rev cur] end
  | c :: s' =>
      if is_space c
      then match cur with
           | [] => split_from [] s'
           | _ => rev cur :: split_from [] s'
           end
      else split_from (c :: cur) s'
  end.

Definition split (s : str) : list str := split_from [] s.

(** [not s] *)
Definition is_empty (s : str) : bool :=
  match s with [] => true | _ => false end.

(** [sep.join(parts)] *)
Fixpoint join (sep : str) (parts : list str) : str :=
  match parts with
  | [] => []
  | [p] => p
  | p :: rest => p ++ sep ++ join sep rest
  end.

(** [s.replace(a, b)] for one-character [a] and [b]. *)
Definition replace_char (a b : ascii) (s : str) : str :=
  map (fun c => if decide (c = a) then b else c) s.

(** [s.title()] on ASCII text: a cased character is upper-cased when it
    follows an uncased one (or starts the string) and lower-cased
    otherwise. *)
Fixpoint title_from (prev_cased : bool) (s : str) : str :=
  match s with
  | [] => []
  | c :: s' =>
      let cased := is_upper_char c || is_lower_char c in
      (if prev_cased then lower_char c else upper_char c)
        :: title_from cased s'
  end.

Definition title (s : str) : str := title_from false s.

(** [str(n)] for a natural number. *)
Definition of_nat (n : nat) : str :=
  lit (NilZero.string_of_uint (Nat.to_uint n)).

(** The blank-line separator, two line feeds. *)
Definition nl : str := [ascii_of_nat 10].

End PyStr.
Import PyStr.

(** ** Exceptions *)
Inductive exn : Type :=
  | IndexError
  | KeyError
  | RequestException.  (* transport, HTTP status or JSON decoding failure *)

Inductive result (A : Type) : Type :=
  | Ok (a : A)
  | Raise (e : exn).
Arguments Ok {A} a.
Arguments Raise {A} e.

(** Sequencing: an exception of the first computation is propagated. *)
Definition and_then {A B : Type} (m : result A) (f : A -> result B)
  : result B :=
  match m with
  | Ok a => f a
  | Raise e => Raise e
  end.

Notation "'do' x <- m ; k" := (and_then m (fun x => k))
  (at level 10, x name, m at level 100, k at level 200,
   format "'[v' 'do'  x  <-  m ; '/' k ']'").

(** [s[i]]: raises [IndexError] outside the string. *)
Definition get_char (s : str) (i : Z) : result ascii :=
  let j := if i <? 0 then len s + i else i in
  if (0 <=? j) && (j <? len s)
  then match s !! Z.to_nat j with
       | Some c => Ok c
       | None => Raise IndexError
       end
  else Raise IndexError.

(** ** The data classes

    Floating-point and JSON numbers are never inspected by the code
    below, only stored and formatted, so their type [num] is a
    parameter. *)
Module Location.
Record t (num : Type) : Type := mk {
  name : str;
  latitude : num;
  longitude : num;
  display_name : str
}.
Arguments mk {num}.
Arguments name {num}.
Arguments latitude {num}.
Arguments longitude {num}.
Arguments display_name {num}.
End Location.

Module WeatherInfo.
Record t (num : Type) : Type := mk {
  temperature : num;
  rain_chance : num;
  weather_code : Z;
  description : str
}.
Arguments mk {num}.
Arguments temperature {num}.
Arguments rain_chance {num}.
Arguments weather_code {num}.
Arguments description {num}.
End WeatherInfo.

Module Place.
Record t (num : Type) : Type := mk {
  name : str;
  type : str;
  latitude : num;
  longitude : num
}.
Arguments mk {num}.
Arguments name {num}.
Arguments type {num}.
Arguments latitude {num}.
Arguments longitude {num}.
End Place.

(** ** The places agent *)
Module PlacesAgent.

(** The parsed provider response.  An element is a JSON object; the keys
    the code reads are [lat], [lon], [center] and [tags], each of which
    may be absent.  [center] is an object with keys [lat] and [lon], and
    [tags] maps strings to strings. *)
Record Center (num : Type) : Type := mkCenter {
  center_lat : option num;
  center_lon : option num
}.
Arguments mkCenter {num}.
Arguments center_lat {num}.
Arguments center_lon {num}.

Record Element (num : Type) : Type := mkElement {
  lat : option num;
  lon : option num;
  center : option (Center num);
  tags : option (gmap str str)
}.
Arguments mkElement {num}.
Arguments lat {num}.
Arguments lon {num}.
Arguments center {num}.
Arguments tags {num}.

Record OverpassData (num : Type) : Type := mkData {
  elements : option (list (Element num))
}.
Arguments mkData {num}.
Arguments elements {num}.

Section Attractions.
Context {num : Type}.

(** [d[key]]: raises [KeyError] when the key is absent. *)
Definition subscript {A : Type} (field : option A) : result A :=
  match field with
  | Some a => Ok a
  | None => Raise KeyError
  end.

(** The coordinates of an element: [None] stands for [continue]. *)
Definition coordinates (element : Element num) : result (option (num * num)) :=
  match lat element, lon element with
  | Some la, Some lo => Ok (Some (la, lo))
  | _, _ =>
      match center element with
      | Some c =>
          do la <- subscript (center_lat c);
          do lo <- subscript (center_lon c);
          Ok (Some (la, lo))
      | None => Ok None
      end
  end.

(** [tags.get('name', '')] with [tags = element.get('tags', {})]. *)
Definition element_name (element : Element num) : str :=
  default [] (default ∅ (tags element) !! lit "name").

(** [tags.get('tourism', tags.get('historic', 'attraction'))] *)
Definition attraction_type (element : Element num) : str :=
  let tags := default ∅ (tags element) in
  default (default (lit "attraction") (tags !! lit "historic"))
          (tags !! lit "tourism").

(** The loop over the elements, with its two accumulators; it leaves
    through [break] as soon as [len(places) >= limit] after an append. *)
Fixpoint places_loop (limit : Z) (elems : list (Element num))
    (places : list (Place.t num)) (seen_names : gset str)
  : result (list (Place.t num)) :=
  match elems with
  | [] => Ok places
  | element :: rest =>
      do coords <- coordinates element;
      match coords with
      | None => places_loop limit rest places seen_names
      | Some (la, lo) =>
          let name := element_name element in
          if is_empty name || bool_decide (name ∈ seen_names)
          then places_loop limit rest places seen_names
          else
            let seen_names := {[ name ]} ∪ seen_names in
            let places :=
              places ++ [ Place.mk name
                            (title (replace_char "_" " " (attraction_type element)))
                            la lo ] in
            if Z.of_nat (length places) >=? limit
            then Ok places
            else places_loop limit rest places seen_names
      end
  end.

(** [get_tourist_attractions], from the outcome of the HTTP request and
    JSON decoding on: any exception inside the [try] block gives the
    empty list. *)
Definition get_tourist_attractions (response : result (OverpassData num))
    (limit : Z) : list (Place.t num) :=
  match (do data <- response;
         places_loop limit (default [] (elements data)) [] ∅) with
  | Ok places => places
  | Raise _ => []
  end.

End Attractions.
End PlacesAgent.

(** ** The parent agent *)
Module TourismParentAgent.

(** The (pattern, search_pattern) pairs of [_extract_place], in order. *)
Definition patterns : list (str * str) :=
  [ (lit "going to ", lit " going to ");
    (lit "go to ", lit " go to ");
    (lit "visit ", lit " visit ");
    (lit "in ", lit " in ");
    (lit "to ", lit " to ");
    (lit "travel to ", lit " travel to ");
    (lit "trip to ", lit " trip to ");
    (lit "headed to ", lit " headed to ");
    (lit "flying to ", lit " flying to ") ].

Definition delimiters : list str :=
  [ lit ","; lit "?"; lit "."; lit "!"; lit " and "; lit " what ";
    lit " let"; lit " how"; lit " when"; lit " where" ].

(** One round of the delimiter loop:
    [if delimiter in after_pattern.lower():
         after_pattern = after_pattern[:after_pattern.lower().find(delimiter)]] *)
Definition truncate_at (after_pattern delimiter : str) : str :=
  if contains delimiter (lower after_pattern)
  then slice_to after_pattern (find delimiter (lower after_pattern))
  else after_pattern.

(** The whole delimiter loop. *)
Definition truncate (after_pattern : str) : str :=
  foldl truncate_at after_pattern delimiters.

(** [f" {user_lower} "] *)
Definition padded (user_lower : str) : str :=
  lit " " ++ user_lower ++ lit " ".

(** The text the code takes after a matched pattern:
    [idx = user_lower.find(search_pattern) + len(search_pattern)],
    [after_pattern = user_input[idx:]]. *)
Definition after_pattern_of (user_input user_lower search_pattern : str) : str :=
  let idx := find search_pattern user_lower + len search_pattern in
  slice_from user_input idx.

(** The body of the pattern loop for one pattern: the place it returns,
    or [None] when the loop goes on to the next pattern. *)
Definition try_pattern (user_input user_lower : str) (p : str * str)
  : option str :=
  let search_pattern := p.2 in
  if contains search_pattern (padded user_lower)
  then
    let place := strip (truncate (after_pattern_of user_input user_lower
                                    search_pattern)) in
    match place with
    | [] => None
    | _ => Some place
    end
  else None.

(** The pattern loop, leaving at the first place found. *)
Fixpoint pattern_loop (user_input user_lower : str) (ps : list (str * str))
  : option str :=
  match ps with
  | [] => None
  | p :: rest =>
      match try_pattern user_input user_lower p with
      | Some place => Some place
      | None => pattern_loop user_input user_lower rest
      end
  end.

(** The characters stripped from a word: comma, full stop, question
    mark, exclamation mark, apostrophe and the double quote. *)
Definition punctuation : str := lit ",.?!'" ++ [ascii_of_nat 34].

Definition skip_words : gset str :=
  list_to_set
    [ lit "I"; lit "I'm"; lit "What"; lit "Where"; lit "How"; lit "When";
      lit "Can"; lit "Could"; lit "Should"; lit "Would"; lit "The" ].

(** The test
    [word_clean and word_clean[0].isupper() and word_clean not in skip_words],
    evaluated left to right. *)
Definition is_capitalized (word_clean : str) : result bool :=
  match word_clean with
  | [] => Ok false
  | _ =>
      do c <- get_char word_clean 0;
      if is_upper_char c
      then Ok (bool_decide (word_clean ∉ skip_words))
      else Ok false
  end.

(** The fallback loop over the words of the input. *)
Fixpoint capitalized_loop (words capitalized : list str) : result (list str) :=
  match words with
  | [] => Ok capitalized
  | word :: rest =>
      let word_clean := strip_chars punctuation word in
      do keep <- is_capitalized word_clean;
      capitalized_loop rest
        (if keep then capitalized ++ [word_clean] else capitalized)
  end.

Definition _extract_place (user_input user_lower : str) : result str :=
  match pattern_loop user_input user_lower patterns with
  | Some place => Ok place
  | None =>
      do capitalized <- capitalized_loop (split user_input) [];
      match capitalized with
      | [] => Ok []
      | _ => Ok (join (lit " ") capitalized)
      end
  end.

Definition weather_keywords : list str :=
  [ lit "weather"; lit "temperature"; lit "temp"; lit "rain"; lit "hot";
    lit "cold"; lit "climate"; lit "forecast"; lit "sunny"; lit "cloudy";
    lit "warm"; lit "cool"; lit "degrees"; lit "celsius"; lit "fahrenheit" ].

Definition places_keywords : list str :=
  [ lit "places"; lit "visit"; lit "attractions"; lit "see"; lit "trip";
    lit "plan"; lit "go"; lit "tourist"; lit "sights";
    lit "recommendations"; lit "where"; lit "what to do";
    lit "things to do"; lit "explore"; lit "tourism" ].

(** [any(keyword in text for keyword in keywords)] *)
Definition any_keyword (keywords : list str) (text : str) : bool :=
  existsb (fun keyword => contains keyword text) keywords.

(** The dictionary returned by [_analyze_intent]; its three keys are
    fixed, so it is a record. *)
Record Intent : Type := mkIntent {
  place : str;
  needs_weather : bool;
  needs_places : bool
}.

Definition _analyze_intent (user_input : str) : result Intent :=
  let user_lower := lower user_input in
  do place <- _extract_place user_input user_lower;
  let needs_weather := any_keyword weather_keywords user_lower in
  let needs_places := any_keyword places_keywords user_lower in
  let needs_places :=
    if contains (lit "plan") user_lower && contains (lit "trip") user_lower
    then true else needs_places in
  let needs_places :=
    if negb needs_weather && negb needs_places && negb (is_empty place)
    then true else needs_places in
  Ok (mkIntent place needs_weather needs_places).

(** *** The orchestrator *)
Section Orchestrator.
Context {num : Type}.

(** How an f-string renders a number. *)
Variable format_num : num -> str.

(** The three child agents; each catches its own exceptions and answers
    [None] or the empty list instead. *)
Variable get_coordinates : str -> option (Location.t num).
Variable get_weather : Location.t num -> option (WeatherInfo.t num).
Variable get_tourist_attractions : Location.t num -> Z -> list (Place.t num).

Definition no_place_message : str :=
  lit "I couldn't identify which place you're asking about. Please mention a specific location. For example: 'I'm going to Paris' or 'What's the weather in Tokyo?'".

Definition place_not_found_message (place_name : str) : str :=
  lit "I'm sorry, I don't know where '" ++ place_name
  ++ lit "' is. It doesn't seem to exist in my database. Could you please check the spelling or try a different place?".

(** The two characters written between the temperature and the C in
    the source file, as UTF-8 bytes. *)
Definition degree : str :=
  map ascii_of_nat [194; 172; 226; 136; 158]%nat.

Definition weather_text (place_name : str) (weather : WeatherInfo.t num) : str :=
  lit "In " ++ place_name ++ lit ", it's currently "
  ++ format_num (WeatherInfo.temperature weather) ++ degree ++ lit "C with "
  ++ WeatherInfo.description weather ++ lit " and a "
  ++ format_num (WeatherInfo.rain_chance weather) ++ lit "% chance of rain.".

Definition weather_apology (place_name : str) : str :=
  lit "I couldn't fetch weather information for " ++ place_name
  ++ lit " at the moment.".

(** The lines added by [for idx, place in enumerate(places, 1)]. *)
Fixpoint places_lines (idx : nat) (places : list (Place.t num)) : str :=
  match places with
  | [] => []
  | place :: rest =>
      nl ++ lit "  " ++ of_nat idx ++ lit ". " ++ Place.name place
      ++ lit " (" ++ Place.type place ++ lit ")"
      ++ places_lines (S idx) rest
  end.

Definition places_text (place_name : str) (places : list (Place.t num)) : str :=
  lit "Here are some great places you can visit in " ++ place_name ++ lit ":"
  ++ places_lines 1 places.

Definition places_apology (place_name : str) : str :=
  lit "I couldn't find specific tourist attractions in " ++ place_name
  ++ lit ", but it's still worth exploring!".

Definition no_action_message (place_name : str) : str :=
  lit "I found " ++ place_name
  ++ lit ", but I'm not sure what information you need. You can ask about weather or places to visit!".

(** Step 2: the weather section appended to [response_parts]. *)
Definition weather_section (place_name : str) (location : Location.t num) : str :=
  match get_weather location with
  | Some weather => weather_text place_name weather
  | None => weather_apology place_name
  end.

(** Step 3: the places section appended to [response_parts]. *)
Definition places_section (place_name : str) (location : Location.t num) : str :=
  match get_tourist_attractions location 5 with
  | [] => places_apology place_name
  | places => places_text place_name places
  end.

(** [response_parts] after steps 2 and 3. *)
Definition response_parts (intent : Intent) (location : Location.t num)
  : list str :=
  let response_parts := [] in
  let response_parts :=
    if needs_weather intent
    then response_parts ++ [weather_section (place intent) location]
    else response_parts in
  let response_parts :=
    if needs_places intent
    then response_parts ++ [places_section (place intent) location]
    else response_parts in
  response_parts.

Definition process_query (user_input : str) : result str :=
  do intent <- _analyze_intent user_input;
  let place_name := place intent in
  if is_empty place_name
  then Ok no_place_message
  else
    match get_coordinates place_name with
    | None => Ok (place_not_found_message place_name)
    | Some location =>
        match response_parts intent location with
        | [] => Ok (no_action_message place_name)
        | parts => Ok (join (nl ++ nl) parts)
        end
    end.

End Orchestrator.

End TourismParentAgent.
Import TourismParentAgent.

(** ** The weather agent *)
Module WeatherAgent.

(** The dictionary [weather_codes] of [_get_weather_description]. *)
Definition weather_code_table : list (Z * str) :=
  [ (0, lit "clear sky"); (1, lit "mainly clear"); (2, lit "partly cloudy");
    (3, lit "overcast"); (45, lit "foggy"); (48, lit "foggy");
    (51, lit "light drizzle"); (53, lit "moderate drizzle");
    (55, lit "dense drizzle"); (61, lit "slight rain");
    (63, lit "moderate rain"); (65, lit "heavy rain");
    (71, lit "slight snow"); (73, lit "moderate snow");
    (75, lit "heavy snow"); (77, lit "snow grains");
    (80, lit "slight rain showers"); (81, lit "moderate rain showers");
    (82, lit "violent rain showers"); (85, lit "slight snow showers");
    (86, lit "heavy snow showers"); (95, lit "thunderstorm");
    (96, lit "thunderstorm with slight hail");
    (99, lit "thunderstorm with heavy hail") ].

Definition weather_codes : gmap Z str := list_to_map weather_code_table.

(** [weather_codes.get(code, "unknown weather")] *)
Definition _get_weather_description (code : Z) : str :=
  default (lit "unknown weather") (weather_codes !! code).

(** The parsed forecast.  The keys the code reads are [current] (with
    [temperature_2m] and [weather_code]) and [daily] (with the list
    [precipitation_probability_max]).  [None] stands for a key that is
    absent; a key that is present holds a value of the expected JSON
    type.  A forecast with a [null] or a value of another type in these
    places is not covered by this record. *)
Record Current (num : Type) : Type := mkCurrent {
  temperature_2m : option num;
  weather_code : option Z
}.
Arguments mkCurrent {num}.
Arguments temperature_2m {num}.
Arguments weather_code {num}.

Record Daily (num : Type) : Type := mkDaily {
  precipitation_probability_max : option (list num)
}.
Arguments mkDaily {num}.
Arguments precipitation_probability_max {num}.

Record Forecast (num : Type) : Type := mkForecast {
  current : option (Current num);
  daily : option (Daily num)
}.
Arguments mkForecast {num}.
Arguments current {num}.
Arguments daily {num}.

Section Weather.
Context {num : Type}.

(** The number 0 used as a default. *)
Variable zero : num.

(** [get_weather], from the outcome of the HTTP request and JSON
    decoding on: any exception inside the [try] block gives [None]. *)
Definition get_weather (response : result (Forecast num))
  : option (WeatherInfo.t num) :=
  match response with
  | Raise _ => None
  | Ok data =>
      let current := default (mkCurrent None None) (current data) in
      let daily := default (mkDaily None) (daily data) in
      let rain_chance :=
        match precipitation_probability_max daily with
        | Some (first :: _) => first
        | _ => zero
        end in
      let weather_code := default 0 (weather_code current) in
      let description := _get_weather_description weather_code in
      Some (WeatherInfo.mk (default zero (temperature_2m current))
              rain_chance weather_code description)
  end.

End Weather.
End WeatherAgent.

(** ** The geocoding agent *)
Module GeocodeAgent.

(** One result of the geocoding provider: a JSON object whose keys
    [lat], [lon] and [display_name] hold strings and may be absent. *)
Record GeoResult : Type := mkGeoResult {
  lat : option str;
  lon : option str;
  display_name : option str
}.

Section Geocode.
Context {num : Type}.

(** [float(text)], which raises when the text is not a number. *)
Variable float : str -> result num.

(** [get_coordinates], from the outcome of the HTTP request and JSON
    decoding on: an empty list gives [None], and so does any exception
    inside the [try] block. *)
Definition get_coordinates (response : result (list GeoResult))
    (place_name : str) : option (Location.t num) :=
  match response with
  | Raise _ => None
  | Ok [] => None
  | Ok (location_data :: _) =>
      match (do la <- PlacesAgent.subscript (lat location_data);
             do latitude <- float la;
             do lo <- PlacesAgent.subscript (lon location_data);
             do longitude <- float lo;
             do display_name <- PlacesAgent.subscript (display_name location_data);
             Ok (Location.mk place_name latitude longitude display_name)) with
      | Ok location => Some location
      | Raise _ => None
      end
  end.

End Geocode.
End GeocodeAgent.

(** ** The assembled agent and the command loop *)
Module Main.

Section Assembled.
Context {num : Type}.
Variable zero : num.
Variable format_num : num -> str.
Variable float : str -> result num.

(** The outcomes of the three HTTP requests. *)
Variable geocode_request : str -> result (list GeocodeAgent.GeoResult).
Variable weather_request
  : Location.t num -> result (WeatherAgent.Forecast num).
Variable places_request
  : Location.t num -> Z -> result (PlacesAgent.OverpassData num).

(** The three child agents that [TourismParentAgent.__init__] creates. *)
Definition geocode_agent (place_name : str) : option (Location.t num) :=
  GeocodeAgent.get_coordinates float (geocode_request place_name) place_name.

Definition weather_agent (location : Location.t num)
  : option (WeatherInfo.t num) :=
  WeatherAgent.get_weather zero (weather_request location).

Definition places_agent (location : Location.t num) (limit : Z)
  : list (Place.t num) :=
  PlacesAgent.get_tourist_attractions (places_request location limit) limit.

(** [agent.process_query] for [agent = TourismParentAgent()]. *)
Definition agent_process_query (user_input : str) : result str :=
  process_query format_num geocode_agent weather_agent places_agent
    user_input.

End Assembled.











Section Loop.

(** [agent.process_query] *)
Variable process_query : str -> result str.



End Loop.
End Main.

(** ** Definitions used to state the properties *)

(** The pure test behind [is_capitalized], on a cleaned word. *)
Definition survives (word_clean : str) : bool :=
  match word_clean with
  | [] => false
  | c :: _ => is_upper_char c && bool_decide (word_clean ∉ skip_words)
  end.

(** The words the fallback of [_extract_place] keeps: each word of the
    input is stripped of punctuation on both sides, then tested. *)
Definition capitalized_words (user_input : str) : list str :=
  List.filter survives (map (strip_chars punctuation) (split user_input)).


(** No pattern of the list gives a place: it does not occur in the
    padded text, or what is left after truncation and trimming is
    empty. *)
Definition no_pattern_place (user_input : str) : bool :=
  forallb
    (fun p : str * str =>
       negb (contains p.2 (padded (lower user_input)))
       || is_empty (strip (truncate (after_pattern_of user_input
                                       (lower user_input) p.2))))
    patterns.

(** A text made of white space only (the empty text included). *)
Definition is_blank (s : str) : bool := forallb is_space s.

(** Sample child agents for the examples: every place is known, the
    weather lookup fails and three attractions are found. *)
Definition sample_format (n : Z) : str := lit "20".

Definition sample_geocoder (place_name : str) : option (Location.t Z) :=
  Some (Location.mk place_name 0 0 place_name).

Definition failing_weather (location : Location.t Z)
  : option (WeatherInfo.t Z) := None.

Definition three_places : list (Place.t Z) :=
  [ Place.mk (lit "Louvre") (lit "Museum") 0 0;
    Place.mk (lit "Eiffel Tower") (lit "Attraction") 0 0;
    Place.mk (lit "Arc de Triomphe") (lit "Monument") 0 0 ].

Definition sample_places (location : Location.t Z) (limit : Z)
  : list (Place.t Z) := three_places.

(** An element gives a place when its coordinates are read without
    an exception and its name is not empty. *)
Definition qualifies {num : Type} (element : PlacesAgent.Element num) : bool :=
  match PlacesAgent.coordinates element with
  | Ok (Some _) => negb (is_empty (PlacesAgent.element_name element))
  | _ => false
  end.

(** A provider element with coordinates and the given name. *)
Definition named_element (name : string) : PlacesAgent.Element Z :=
  PlacesAgent.mkElement (Some 1) (Some 2) None
    (Some {[ lit "name" := lit name; lit "tourism" := lit "museum" ]}).

Definition sample_response : result (PlacesAgent.OverpassData Z) :=
  Ok (PlacesAgent.mkData
        (Some [ named_element "Louvre"; named_element "";
                named_element "Louvre"; named_element "Orsay";
                named_element "Rodin" ])).

(** The text after the first occurrence of the padded phrase in the
    padded text, as the specification words it.  An offset in the padded
    text is one more than the same offset in the input. *)
Definition after_first_padded_occurrence
    (user_input user_lower search_pattern : str) : str :=
  match index_of search_pattern (padded user_lower) with
  | Some q => drop (q + length search_pattern - 1) user_input
  | None => []
  end.

(** The offset of the first occurrence of [d] in [ls], or the length of
    [ls] when there is none. *)
Definition first_offset (d ls : str) : nat :=
  default (length ls) (index_of d ls).







(** A non-empty text whose first and last characters are not white
    space. *)
Definition edges_ok (s : str) : Prop :=
  match s with [] => False | c :: _ => is_space c = false end
  /\ match rev s with [] => False | c :: _ => is_space c = false end.

(** A provider element whose [center] object has no [lat]. *)
Definition broken_element : PlacesAgent.Element Z :=
  PlacesAgent.mkElement None None (Some (PlacesAgent.mkCenter None (Some 2)))
    (Some {[ lit "name" := lit "Pantheon" ]}).

(** The codes listed in [weather_codes]. *)
Definition known_weather_codes : list Z :=
  [0; 1; 2; 3; 45; 48; 51; 53; 55; 61; 63; 65; 71; 73; 75; 77; 80; 81; 82;
   85; 86; 95; 96; 99].



(** A geocoding provider that is down, one that finds nothing, and
    sample weather and places providers that are down. *)
Definition geocode_down (place_name : str)
  : result (list GeocodeAgent.GeoResult) := Raise RequestException.

Definition geocode_nothing (place_name : str)
  : result (list GeocodeAgent.GeoResult) := Ok [].

Definition weather_down (location : Location.t Z)
  : result (WeatherAgent.Forecast Z) := Raise RequestException.

Definition places_down (location : Location.t Z) (limit : Z)
  : result (PlacesAgent.OverpassData Z) := Raise RequestException.

Definition sample_float (text : str) : result Z := Ok 0.


(** The line feed character. *)
Definition LF : ascii := "010"%char.

(** The line of the places text for the attraction numbered [idx]: a
    line feed, two spaces, the number, a full stop, the name and the
    category in parentheses. *)
Definition attraction_line {num : Type} (idx : nat) (p : Place.t num) : str :=
  [LF] ++ lit "  " ++ of_nat idx ++ lit ". " ++ Place.name p
  ++ lit " (" ++ Place.type p ++ lit ")".

(** * Properties *)

(** ** Facts about the string operations *)

Lemma starts_with_take (d s : str) :
  starts_with d s = true <-> take (length d) s = d.
Proof.
  revert s. induction d as [|a d IH]; intros [|b s]; simpl; try easy.
  destruct (decide (a = b)) as [->|Hne].
  - rewrite IH. split; [intros ->; reflexivity | congruence].
  - split; [discriminate | congruence].
Qed.


Lemma starts_with_length (d s : str) :
  starts_with d s = true -> (length d <= length s)%nat.
Proof.
  intros H. apply starts_with_take in H.
  rewrite <- H, length_take. lia.
Qed.

(** [index_of] returns the first offset at which the needle starts. *)
Lemma index_of_Some (d s : str) (p : nat) :
  index_of d s = Some p <->
  starts_with d (drop p s) = true
  /\ forall q, (q < p)%nat -> starts_with d (drop q s) = false.
Proof.
  revert p. induction s as [|b s IH]; intros p.
  - simpl. destruct (starts_with d []) eqn:E.
    + split.
      * intros [= <-]. split; [exact E | lia].
      * intros [_ Hq]. destruct p as [|p]; [reflexivity|].
        specialize (Hq 0%nat ltac:(lia)). simpl in Hq. congruence.
    + split; [discriminate|]. intros [H _].
      rewrite drop_nil in H. congruence.
  - cbn [index_of]. destruct (starts_with d (b :: s)) eqn:E.
    + split.
      * intros [= <-]. split; [exact E | lia].
      * intros [_ Hq]. destruct p as [|p]; [reflexivity|].
        specialize (Hq 0%nat ltac:(lia)). simpl in Hq. congruence.
    + destruct p as [|p].
      * split.
        -- destruct (index_of d s); discriminate.
        -- intros [H _]. simpl in H. congruence.
      * destruct (index_of d s) as [p'|] eqn:Ei; simpl.
        -- split.
           ++ intros [= <-]. destruct (proj1 (IH p') eq_refl) as [H1 H2].
              split; [exact H1|].
              intros [|q] Hq; [exact E | apply H2; lia].
           ++ intros [H1 H2].
              assert (Some p' = Some p) as [= ->]; [|reflexivity].
              apply IH. split; [exact H1|].
              intros q Hq. apply (H2 (S q)). lia.
        -- split; [discriminate|]. intros [H1 H2]. exfalso.
           assert (@None nat = Some p) as Hp; [|discriminate].
           apply IH. split; [exact H1|].
           intros q Hq. apply (H2 (S q)). lia.
Qed.


(** ** The fallback never raises *)

Lemma is_capitalized_ok (w : str) : is_capitalized w = Ok (survives w).
Proof.
  destruct w as [|c w]; [reflexivity|].
  unfold is_capitalized, survives, get_char, len.
  change (0 <? 0) with false. cbn iota.
  replace ((0 <=? 0) && (0 <? Z.of_nat (length (c :: w)))) with true
    by (cbn [length]; symmetry; apply andb_true_intro; split;
        [reflexivity | apply Z.ltb_lt; lia]).
  change (Z.to_nat 0) with 0%nat.
  cbn [lookup list_lookup and_then].
  destruct (is_upper_char c); reflexivity.
Qed.

Lemma capitalized_loop_ok (words acc : list str) :
  capitalized_loop words acc
  = Ok (acc ++ List.filter survives (map (strip_chars punctuation) words)).
Proof.
  revert acc. induction words as [|w words IH]; intros acc.
  - cbn [capitalized_loop map List.filter]. rewrite app_nil_r. reflexivity.
  - cbn [capitalized_loop map List.filter].
    rewrite is_capitalized_ok. cbn [and_then]. rewrite IH.
    destruct (survives (strip_chars punctuation w)).
    + rewrite <- app_assoc. reflexivity.
    + reflexivity.
Qed.



Lemma extract_place_fallback (user_input user_lower : str) :
  pattern_loop user_input user_lower patterns = None ->
  _extract_place user_input user_lower
  = Ok (join (lit " ") (capitalized_words user_input)).
Proof.
  intros H. unfold _extract_place. rewrite H.
  rewrite capitalized_loop_ok. cbn [and_then app].
  fold (capitalized_words user_input).
  destruct (capitalized_words user_input); reflexivity.
Qed.

(** [_extract_place] returns normally on every input. *)
Lemma extract_place_total (user_input user_lower : str) :
  exists place, _extract_place user_input user_lower = Ok place.
Proof.
  destruct (pattern_loop user_input user_lower patterns) as [pl|] eqn:E.
  - exists pl. unfold _extract_place. rewrite E. reflexivity.
  - eexists. apply extract_place_fallback. exact E.
Qed.

Lemma analyze_intent_total (user_input : str) :
  exists intent, _analyze_intent user_input = Ok intent.
Proof.
  unfold _analyze_intent.
  destruct (extract_place_total user_input (lower user_input)) as [pl ->].
  cbn [and_then]. eexists. reflexivity.
Qed.

(** ** C5: the capitalised-word fallback *)




(** ** C7 and C10: two concrete inputs *)


(** C10.  For "What's the weather" no pattern matches and the fallback
    keeps the word What's, which is not in the skip set although What
    is; so [process_query] does not answer with the no-place guidance
    but asks the geocoder for What's, and its answer depends on what the
    geocoder returns. *)
Theorem whats_the_weather_is_geocoded
    {num : Type} (format_num : num -> str)
    (get_coordinates : str -> option (Location.t num))
    (get_weather : Location.t num -> option (WeatherInfo.t num))
    (get_tourist_attractions : Location.t num -> Z -> list (Place.t num)) :
  let text := lit "What's the weather" in
  no_pattern_place text = true
  /\ _extract_place text (lower text) = Ok (lit "What's")
  /\ (lit "What" ∈ skip_words)
  /\ (lit "What's" ∉ skip_words)
  /\ process_query format_num get_coordinates get_weather
       get_tourist_attractions text
     = match get_coordinates (lit "What's") with
       | None => Ok (place_not_found_message (lit "What's"))
       | Some location =>
           Ok (weather_section format_num get_weather (lit "What's") location)
       end
  /\ process_query format_num get_coordinates get_weather
       get_tourist_attractions text
     <> Ok no_place_message.
Proof.
  intros text.
  assert (Hq : process_query format_num get_coordinates get_weather
                 get_tourist_attractions text
               = match get_coordinates (lit "What's") with
                 | None => Ok (place_not_found_message (lit "What's"))
                 | Some location =>
                     Ok (weather_section format_num get_weather
                           (lit "What's") location)
                 end).
  { unfold process_query.
    replace (_analyze_intent text)
      with (Ok (mkIntent (lit "What's") true false))
      by (vm_compute; reflexivity).
    cbn [and_then place is_empty lit list_ascii_of_string].
    destruct (get_coordinates _); reflexivity. }
  split; [vm_compute; reflexivity|].
  split; [vm_compute; reflexivity|].
  split; [refine (bool_decide_unpack _ _); vm_compute; exact I|].
  split; [refine (bool_decide_unpack _ _); vm_compute; exact I|].
  split; [exact Hq|].
  rewrite Hq. destruct (get_coordinates _) as [location|].
  - unfold weather_section.
    destruct (get_weather location); intros [=].
  - intros [=].
Qed.

(** ** C6: a known place always comes with a capability *)

(** C6.  In the intent record of any input, a non-empty place comes with
    at least one of the two flags; said the other way round, both flags
    are false only when the place is empty. *)
Theorem place_implies_capability (user_input : str) (intent : Intent) :
  _analyze_intent user_input = Ok intent ->
  (place intent <> [] ->
   needs_weather intent = true \/ needs_places intent = true)
  /\ (needs_weather intent = false -> needs_places intent = false ->
      place intent = []).
Proof.
  unfold _analyze_intent.
  destruct (extract_place_total user_input (lower user_input)) as [pl ->].
  cbn [and_then].
  generalize (any_keyword weather_keywords (lower user_input)).
  generalize (any_keyword places_keywords (lower user_input)).
  generalize (contains (lit "plan") (lower user_input)
              && contains (lit "trip") (lower user_input)).
  intros o np nw [= <-]. cbn [place needs_weather needs_places].
  destruct pl as [|c pl], nw, np, o; cbn; split; intros;
    auto; congruence.
Qed.

Lemma place_implies_capability_witness :
  (lit "Berlin" <> [] -> false = true \/ true = true)
  /\ (false = false -> true = false -> lit "Berlin" = []).
Proof.
  apply (place_implies_capability (lit "Berlin")
           (mkIntent (lit "Berlin") false true)).
  vm_compute. reflexivity.
Defined.

(** ** Blank input *)

Lemma space_not_upper (c : ascii) :
  is_space c = true -> is_upper_char c = false.
Proof.
  unfold is_space, is_upper_char. intros H.
  apply orb_true_iff in H. rewrite !andb_true_iff, !Z.leb_le in H.
  apply andb_false_iff. rewrite !Z.leb_gt. lia.
Qed.

Lemma lower_blank (s : str) : is_blank s = true -> lower s = s.
Proof.
  induction s as [|c s IH]; [reflexivity|].
  cbn [is_blank forallb lower map]. intros H.
  apply andb_prop in H as [Hc Hs]. f_equal.
  - unfold lower_char. rewrite (space_not_upper _ Hc). reflexivity.
  - apply IH. exact Hs.
Qed.

(** An occurrence of [d] in [s] puts every character of [d] in [s]. *)
Lemma index_of_chars (d s : str) (p : nat) (c : ascii) :
  index_of d s = Some p -> c ∈ d -> c ∈ s.
Proof.
  intros H Hc. apply index_of_Some in H as [H _].
  apply starts_with_take in H. rewrite <- H in Hc.
  apply (subseteq_drop p s). eapply subseteq_take. exact Hc.
Qed.

Lemma blank_contains (d t : str) :
  existsb (fun c => negb (is_space c)) d = true ->
  is_blank t = true ->
  contains d t = false.
Proof.
  intros Hd Ht. unfold contains.
  destruct (index_of d t) as [p|] eqn:E; [|reflexivity].
  apply existsb_exists in Hd as (c & Hc & Hns).
  apply list_elem_of_In in Hc.
  pose proof (index_of_chars _ _ _ _ E Hc) as Hin.
  apply list_elem_of_In in Hin.
  unfold is_blank in Ht.
  rewrite forallb_forall in Ht. rewrite (Ht c Hin) in Hns. discriminate Hns.
Qed.

Lemma blank_any_keyword (keywords : list str) (t : str) :
  forallb (existsb (fun c => negb (is_space c))) keywords = true ->
  is_blank t = true ->
  any_keyword keywords t = false.
Proof.
  intros Hk Ht. unfold any_keyword.
  induction keywords as [|k ks IH]; [reflexivity|].
  cbn [forallb] in Hk. apply andb_prop in Hk as [Hk Hks].
  cbn [existsb]. rewrite (blank_contains _ _ Hk Ht). exact (IH Hks).
Qed.

Lemma blank_padded (s : str) : is_blank s = true -> is_blank (padded s) = true.
Proof.
  unfold padded, is_blank. intros H.
  rewrite !forallb_app. rewrite H. reflexivity.
Qed.

Lemma blank_split (s : str) : is_blank s = true -> split s = [].
Proof.
  unfold split. induction s as [|c s IH]; [reflexivity|].
  cbn [is_blank forallb split_from]. intros H.
  apply andb_prop in H as [Hc Hs]. rewrite Hc. exact (IH Hs).
Qed.

Lemma blank_pattern_loop (s : str) :
  is_blank s = true -> pattern_loop s (lower s) patterns = None.
Proof.
  intros H. rewrite (lower_blank _ H).
  assert (Hall : forall ps : list (str * str),
             forallb (fun p : str * str =>
                        existsb (fun c => negb (is_space c)) p.2) ps = true ->
             pattern_loop s s ps = None).
  { induction ps as [|p ps IH]; [reflexivity|].
    cbn [forallb pattern_loop]. intros Hp.
    apply andb_prop in Hp as [Hp Hps].
    unfold try_pattern.
    rewrite (blank_contains _ _ Hp (blank_padded _ H)). exact (IH Hps). }
  apply Hall. vm_compute. reflexivity.
Qed.

Lemma blank_intent (s : str) :
  is_blank s = true -> _analyze_intent s = Ok (mkIntent [] false false).
Proof.
  intros H. unfold _analyze_intent.
  rewrite (extract_place_fallback _ _ (blank_pattern_loop _ H)).
  unfold capitalized_words. rewrite (blank_split _ H).
  cbn [map List.filter join and_then].
  rewrite (lower_blank _ H).
  rewrite (blank_any_keyword weather_keywords s
             ltac:(vm_compute; reflexivity) H).
  rewrite (blank_any_keyword places_keywords s
             ltac:(vm_compute; reflexivity) H).
  rewrite (blank_contains (lit "plan") s ltac:(vm_compute; reflexivity) H).
  reflexivity.
Qed.

(** ** The words of a text *)

Lemma forallb_rev (f : ascii -> bool) (l : str) :
  forallb f (rev l) = forallb f l.
Proof.
  induction l as [|x l IH]; [reflexivity|].
  cbn [rev forallb]. rewrite forallb_app, IH. cbn [forallb].
  rewrite andb_true_r. apply andb_comm.
Qed.

(** Every word returned by [split] is non-empty and free of white
    space. *)
Lemma split_from_words (s cur : str) :
  forallb (fun c => negb (is_space c)) cur = true ->
  Forall (fun w : str =>
            w <> [] /\ forallb (fun c => negb (is_space c)) w = true)
         (split_from cur s).
Proof.
  revert cur. induction s as [|c s IH]; intros cur Hcur.
  - cbn [split_from]. destruct cur as [|x cur]; [constructor|].
    constructor; [|constructor]. split.
    + intros E. apply (f_equal (@length ascii)) in E.
      rewrite length_rev in E. discriminate E.
    + rewrite forallb_rev. exact Hcur.
  - cbn [split_from]. destruct (is_space c) eqn:Hc.
    + destruct cur as [|x cur]; [apply IH; reflexivity|].
      constructor; [|apply IH; reflexivity]. split.
      * intros E. apply (f_equal (@length ascii)) in E.
        rewrite length_rev in E. discriminate E.
      * rewrite forallb_rev. exact Hcur.
    + apply IH. cbn [forallb]. rewrite Hc, Hcur. reflexivity.
Qed.

Lemma split_words (s : str) :
  Forall (fun w : str =>
            w <> [] /\ forallb (fun c => negb (is_space c)) w = true)
         (split s).
Proof. apply split_from_words. reflexivity. Qed.

(** ** The orchestrator *)
Section OrchestratorProperties.
Context {num : Type} (format_num : num -> str).
Context (get_coordinates : str -> option (Location.t num)).
Context (get_weather : Location.t num -> option (WeatherInfo.t num)).
Context (get_tourist_attractions : Location.t num -> Z -> list (Place.t num)).

Local Abbreviation process_query :=
  (process_query format_num get_coordinates get_weather
     get_tourist_attractions).
Local Abbreviation response_parts :=
  (response_parts format_num get_weather get_tourist_attractions).
Local Abbreviation weather_section := (weather_section format_num get_weather).
Local Abbreviation places_section := (places_section get_tourist_attractions).

(** C1.  Whatever the child agents answer, [process_query] returns a
    text on every input and raises nothing; on an empty or blank input
    the intent has no place and no flag, and the answer is the guidance
    message. *)
Theorem process_query_total (user_input : str) :
  (exists response, process_query user_input = Ok response)
  /\ (is_blank user_input = true ->
      _analyze_intent user_input = Ok (mkIntent [] false false)
      /\ process_query user_input = Ok no_place_message).
Proof.
  split.
  - unfold TourismParentAgent.process_query.
    destruct (analyze_intent_total user_input) as [intent ->].
    cbn [and_then].
    destruct (is_empty (place intent)); [eexists; reflexivity|].
    destruct (get_coordinates (place intent)) as [location|];
      [|eexists; reflexivity].
    destruct (TourismParentAgent.response_parts _ _ _ intent location);
      eexists; reflexivity.
  - intros H. pose proof (blank_intent _ H) as Hi.
    split; [exact Hi|].
    unfold TourismParentAgent.process_query. rewrite Hi. reflexivity.
Qed.

(** Two texts that differ within their first [n] characters differ. *)
Lemma differ_by_prefix (n : nat) (a b : str) : take n a <> take n b -> a <> b.
Proof. intros H ->. apply H. reflexivity. Qed.

Lemma take_app_known (n : nat) (a b x : str) :
  take n a = x -> length x = n -> take n (a ++ b) = x.
Proof.
  intros H L. rewrite take_app_le; [exact H|].
  rewrite <- L, <- H, length_take. lia.
Qed.

Lemma weather_section_start (place_name : str) (location : Location.t num) :
  take 2 (weather_section place_name location) = lit "In"
  \/ take 3 (weather_section place_name location) = lit "I c".
Proof.
  unfold TourismParentAgent.weather_section.
  destruct (get_weather location); [left | right]; reflexivity.
Qed.

Lemma places_section_start (place_name : str) (location : Location.t num) :
  take 2 (places_section place_name location) = lit "He"
  \/ take 3 (places_section place_name location) = lit "I c".
Proof.
  unfold TourismParentAgent.places_section.
  destruct (get_tourist_attractions location 5); [right | left]; reflexivity.
Qed.

(** The parts list, by the two flags. *)
Lemma response_parts_flags (intent : Intent) (location : Location.t num) :
  response_parts intent location
  = (if needs_weather intent
     then [weather_section (place intent) location] else [])
    ++ (if needs_places intent
        then [places_section (place intent) location] else []).
Proof.
  unfold TourismParentAgent.response_parts.
  destruct (needs_weather intent), (needs_places intent); reflexivity.
Qed.

(** C9.  The branch of [process_query] taken when [response_parts] is
    empty cannot be reached: an intent with a place has a flag set, so a
    section is appended; and no answer of [process_query] is the message
    of that branch. *)
Theorem no_action_branch_unreachable (user_input : str) :
  (forall intent location,
      _analyze_intent user_input = Ok intent ->
      place intent <> [] ->
      response_parts intent location <> [])
  /\ (forall place_name,
         process_query user_input <> Ok (no_action_message place_name)).
Proof.
  assert (Hparts : forall intent location,
             _analyze_intent user_input = Ok intent ->
             place intent <> [] ->
             response_parts intent location <> []).
  { intros intent location Hi Hp.
    destruct (place_implies_capability _ _ Hi) as [Hflag _].
    rewrite response_parts_flags.
    destruct (Hflag Hp) as [-> | ->]; [discriminate|].
    destruct (needs_weather intent); discriminate. }
  split; [exact Hparts|].
  intros place_name. unfold TourismParentAgent.process_query.
  destruct (analyze_intent_total user_input) as [intent Hi]. rewrite Hi.
  cbn [and_then].
  destruct (is_empty (place intent)) eqn:He.
  { intros [=]. }
  destruct (get_coordinates (place intent)) as [location|].
  2:{ intros [=]. }
  assert (Hp : place intent <> []) by (intros E; rewrite E in He; discriminate He).
  specialize (Hparts intent location Hi Hp).
  rewrite response_parts_flags in *.
  pose proof (weather_section_start (place intent) location) as Hw.
  pose proof (places_section_start (place intent) location) as Hs.
  set (w := weather_section (place intent) location) in *.
  set (q := places_section (place intent) location) in *.
  clearbody w q.
  destruct (needs_weather intent), (needs_places intent);
    cbn [app join] in *; try (exfalso; apply Hparts; reflexivity);
    intros [= H]; revert H.
  - destruct Hw as [Hw | Hw].
    + apply (differ_by_prefix 2).
      rewrite (take_app_known _ _ _ _ Hw eq_refl). discriminate.
    + apply (differ_by_prefix 3).
      rewrite (take_app_known _ _ _ _ Hw eq_refl). discriminate.
  - destruct Hw as [Hw | Hw].
    + apply (differ_by_prefix 2). rewrite Hw. discriminate.
    + apply (differ_by_prefix 3). rewrite Hw. discriminate.
  - destruct Hs as [Hs | Hs].
    + apply (differ_by_prefix 2). rewrite Hs. discriminate.
    + apply (differ_by_prefix 3). rewrite Hs. discriminate.
Qed.

(** The lines of the places text, one per attraction, numbered from
    [idx]. *)
Lemma places_lines_numbered (places : list (Place.t num)) (idx : nat) :
  places_lines idx places
  = concat (imap (fun i p => attraction_line (idx + i) p) places).
Proof.
  assert (Hline : forall (k : nat) (q : Place.t num) (tail : str),
             nl ++ lit "  " ++ of_nat k ++ lit ". " ++ Place.name q
             ++ lit " (" ++ Place.type q ++ lit ")" ++ tail
             = attraction_line k q ++ tail).
  { intros k q tail. unfold attraction_line.
    rewrite <- !app_assoc. reflexivity. }
  revert idx. induction places as [|p places IH]; intros idx; [reflexivity|].
  cbn [places_lines imap concat]. rewrite (IH (S idx)), Hline, Nat.add_0_r.
  f_equal. f_equal. apply imap_ext. intros i x _.
  unfold compose. f_equal. lia.
Qed.

(** C2.  When both capabilities are requested and the place is geocoded,
    the answer is the weather section, a blank line (two line feeds),
    and the places section, in that order.  The weather section is the
    weather sentence or, when the weather lookup fails, the sentence
    "I couldn't fetch weather information for <place> at the moment.";
    the places section is the header naming the place followed by one
    numbered line per attraction or, when no attraction is found, the
    sentence "I couldn't find specific tourist attractions in <place>,
    but it's still worth exploring!".  Each section is decided by its
    own lookup alone.  In particular a failed weather lookup together
    with a non-empty list of attractions gives the weather apology
    naming the place, the blank line, and the places text. *)
Theorem failure_isolation (user_input : str) (intent : Intent)
    (location : Location.t num) :
  _analyze_intent user_input = Ok intent ->
  place intent <> [] ->
  get_coordinates (place intent) = Some location ->
  needs_weather intent = true ->
  needs_places intent = true ->
  process_query user_input
  = Ok ((match get_weather location with
         | Some weather =>
             lit "In " ++ place intent ++ lit ", it's currently "
             ++ format_num (WeatherInfo.temperature weather)
             ++ map ascii_of_nat [194; 172; 226; 136; 158]%nat
             ++ lit "C with " ++ WeatherInfo.description weather
             ++ lit " and a " ++ format_num (WeatherInfo.rain_chance weather)
             ++ lit "% chance of rain."
         | None =>
             lit "I couldn't fetch weather information for " ++ place intent
             ++ lit " at the moment."
         end)
        ++ [LF; LF]
        ++ (match get_tourist_attractions location 5 with
            | [] =>
                lit "I couldn't find specific tourist attractions in "
                ++ place intent ++ lit ", but it's still worth exploring!"
            | first :: rest =>
                lit "Here are some great places you can visit in "
                ++ place intent ++ lit ":"
                ++ concat (imap (fun i p => attraction_line (S i) p)
                             (first :: rest))
            end))
  /\ (get_weather location = None ->
      get_tourist_attractions location 5 <> [] ->
      process_query user_input
      = Ok (lit "I couldn't fetch weather information for " ++ place intent
            ++ lit " at the moment."
            ++ [LF; LF]
            ++ lit "Here are some great places you can visit in "
            ++ place intent ++ lit ":"
            ++ concat (imap (fun i p => attraction_line (S i) p)
                         (get_tourist_attractions location 5)))).
Proof.
  intros Hi Hp Hg Hw Hs.
  assert (Hq : process_query user_input
               = Ok (weather_section (place intent) location ++ nl ++ nl
                     ++ places_section (place intent) location)).
  { unfold TourismParentAgent.process_query. rewrite Hi. cbn [and_then].
    destruct (place intent) as [|c pl] eqn:E; [congruence|].
    cbn [is_empty]. rewrite Hg, response_parts_flags, Hw, Hs.
    rewrite E. cbn [app join]. rewrite <- app_assoc. reflexivity. }
  assert (Hplaces : forall ps : list (Place.t num),
             places_text (place intent) ps
             = lit "Here are some great places you can visit in "
               ++ place intent ++ lit ":"
               ++ concat (imap (fun i p => attraction_line (S i) p) ps)).
  { intros ps. unfold places_text. rewrite (places_lines_numbered ps 1).
    reflexivity. }
  split.
  - rewrite Hq. f_equal.
    unfold TourismParentAgent.weather_section,
      TourismParentAgent.places_section.
    destruct (get_weather location) as [w|];
      destruct (get_tourist_attractions location 5) as [|p ps];
      rewrite ?Hplaces;
      unfold weather_text, weather_apology, places_apology, degree;
      rewrite <- ?app_assoc; reflexivity.
  - intros Hnone Hsome. rewrite Hq. f_equal.
    unfold TourismParentAgent.weather_section,
      TourismParentAgent.places_section.
    rewrite Hnone.
    destruct (get_tourist_attractions location 5) as [|p ps]; [congruence|].
    rewrite Hplaces. unfold weather_apology.
    rewrite <- ?app_assoc. reflexivity.
Qed.

End OrchestratorProperties.

Lemma process_query_total_witness :
  _analyze_intent (lit "   ") = Ok (mkIntent [] false false)
  /\ process_query sample_format sample_geocoder failing_weather
       sample_places (lit "   ")
     = Ok no_place_message.
Proof.
  apply (process_query_total sample_format sample_geocoder failing_weather
           sample_places (lit "   ")).
  vm_compute. reflexivity.
Defined.

Lemma no_action_branch_unreachable_witness :
  response_parts sample_format failing_weather sample_places
    (mkIntent (lit "Berlin") false true) (Location.mk (lit "Berlin") 0 0 [])
  <> [].
Proof.
  apply (proj1 (no_action_branch_unreachable sample_format sample_geocoder
                  failing_weather sample_places (lit "Berlin"))).
  - vm_compute. reflexivity.
  - discriminate.
Defined.

Lemma failure_isolation_witness :
  process_query sample_format sample_geocoder failing_weather sample_places
    (lit "weather and places to see in Paris")
  = Ok (lit "I couldn't fetch weather information for Paris at the moment."
        ++ [LF; LF]
        ++ lit "Here are some great places you can visit in Paris:"
        ++ [LF] ++ lit "  1. Louvre (Museum)"
        ++ [LF] ++ lit "  2. Eiffel Tower (Attraction)"
        ++ [LF] ++ lit "  3. Arc de Triomphe (Monument)").
Proof.
  refine (proj2
    (failure_isolation sample_format sample_geocoder failing_weather
       sample_places (lit "weather and places to see in Paris")
       (mkIntent (lit "Paris") true true)
       (Location.mk (lit "Paris") 0 0 (lit "Paris"))
       _ _ _ _ _) _ _).
  - vm_compute. reflexivity.
  - discriminate.
  - reflexivity.
  - reflexivity.
  - reflexivity.
  - reflexivity.
  - discriminate.
Defined.

(** ** C8: the list of attractions *)
Section AttractionsProperties.
Context {num : Type}.
Import PlacesAgent.

(** What the loop keeps true of its accumulators, and what it returns. *)
Lemma places_loop_inv (limit : Z) (elems : list (Element num)) :
  forall (places : list (Place.t num)) (seen_names : gset str)
         (r : list (Place.t num)),
    places_loop limit elems places seen_names = Ok r ->
    Z.of_nat (length places) < limit ->
    (forall n, n ∈ seen_names <-> n ∈ map Place.name places) ->
    NoDup (map Place.name places) ->
    Forall (fun p => Place.name p <> []) places ->
    Z.of_nat (length r) <= limit
    /\ NoDup (map Place.name r)
    /\ Forall (fun p => Place.name p <> []) r
    /\ exists new, r = places ++ new
                   /\ map Place.name new `sublist_of` map element_name elems.
Proof.
  induction elems as [|element rest IH]; intros places seen r Hr Hlen Hseen Hnd Hne.
  - cbn [places_loop] in Hr. injection Hr as <-.
    repeat split; [lia | exact Hnd | exact Hne |].
    exists []. rewrite app_nil_r. split; [reflexivity | constructor].
  - cbn [places_loop] in Hr.
    destruct (coordinates element) as [[[la lo]|]|e]; cbn [and_then] in Hr;
      [| |discriminate Hr].
    2:{ destruct (IH _ _ _ Hr Hlen Hseen Hnd Hne) as (H1 & H2 & H3 & new & H4 & H5).
        repeat split; try assumption. exists new. split; [exact H4|].
        cbn [map]. apply sublist_cons. exact H5. }
    destruct (is_empty (element_name element)) eqn:Hempty; cbn [orb] in Hr.
    { destruct (IH _ _ _ Hr Hlen Hseen Hnd Hne) as (H1 & H2 & H3 & new & H4 & H5).
      repeat split; try assumption. exists new. split; [exact H4|].
      cbn [map]. apply sublist_cons. exact H5. }
    destruct (bool_decide (element_name element ∈ seen)) eqn:Hin.
    { destruct (IH _ _ _ Hr Hlen Hseen Hnd Hne) as (H1 & H2 & H3 & new & H4 & H5).
      repeat split; try assumption. exists new. split; [exact H4|].
      cbn [map]. apply sublist_cons. exact H5. }
    apply bool_decide_eq_false in Hin.
    set (P := Place.mk (element_name element)
                (title (replace_char "_" " " (attraction_type element))) la lo) in *.
    assert (Hname : element_name element <> [])
      by (intros E; rewrite E in Hempty; discriminate Hempty).
    assert (Hnd' : NoDup (map Place.name (places ++ [P]))).
    { rewrite map_app. apply NoDup_app. split; [exact Hnd|]. split.
      - intros n Hn Hn'. cbn in Hn'. apply list_elem_of_singleton in Hn'.
        subst n. apply Hin, Hseen. exact Hn.
      - cbn. apply NoDup_singleton. }
    assert (Hne' : Forall (fun p => Place.name p <> []) (places ++ [P])).
    { apply Forall_app. split; [exact Hne|]. constructor; [exact Hname | constructor]. }
    destruct (Z.of_nat (length (places ++ [P])) >=? limit) eqn:Hge.
    + injection Hr as <-.
      repeat split; [|exact Hnd' | exact Hne' |].
      * rewrite length_app in *. cbn [length] in *. lia.
      * exists [P]. split; [reflexivity|].
        cbn [map]. apply sublist_skip. apply sublist_nil_l.
    + assert (Hlen' : Z.of_nat (length (places ++ [P])) < limit)
        by (rewrite Z.geb_leb in Hge; apply Z.leb_gt in Hge; exact Hge).
      assert (Hseen' : forall n, n ∈ ({[element_name element]} ∪ seen : gset str)
                                 <-> n ∈ map Place.name (places ++ [P])).
      { intros n. rewrite map_app, elem_of_app, elem_of_union, elem_of_singleton.
        cbn [map]. rewrite list_elem_of_singleton, Hseen. cbn. tauto. }
      destruct (IH _ _ _ Hr Hlen' Hseen' Hnd' Hne')
        as (H1 & H2 & H3 & new & H4 & H5).
      repeat split; try assumption.
      exists (P :: new). split.
      * rewrite H4, <- app_assoc. reflexivity.
      * cbn [map]. apply sublist_skip. exact H5.
Qed.

(** When no element qualifies the loop returns its accumulator or stops
    on an exception. *)
Lemma places_loop_nothing (limit : Z) (elems : list (Element num))
    (places : list (Place.t num)) (seen_names : gset str) :
  forallb (fun e => negb (qualifies e)) elems = true ->
  places_loop limit elems places seen_names = Ok places
  \/ exists e, places_loop limit elems places seen_names = Raise e.
Proof.
  induction elems as [|element rest IH]; intros H; [left; reflexivity|].
  cbn [forallb] in H. apply andb_prop in H as [Hq Hrest].
  cbn [places_loop]. unfold qualifies in Hq.
  destruct (coordinates element) as [[[la lo]|]|e]; cbn [and_then].
  - rewrite negb_involutive in Hq. rewrite Hq. cbn [orb]. exact (IH Hrest).
  - exact (IH Hrest).
  - right. exists e. reflexivity.
Qed.

(** C8, amended.  For a limit of at least one, the list built from any
    provider response has at most [limit] entries, every entry has a
    non-empty name, the names are pairwise distinct, and they appear in
    the order of the provider's elements; the list is empty, not an
    error, when the request failed or no element qualifies. *)
Theorem attractions_list_properties
    (response : result (OverpassData num)) (limit : Z) :
  1 <= limit ->
  let places := get_tourist_attractions response limit in
  Z.of_nat (length places) <= limit
  /\ Forall (fun p => Place.name p <> []) places
  /\ NoDup (map Place.name places)
  /\ (forall data, response = Ok data ->
        map Place.name places
          `sublist_of` map element_name (default [] (elements data)))
  /\ (forall data, response = Ok data ->
        forallb (fun e => negb (qualifies e)) (default [] (elements data)) = true ->
        places = [])
  /\ (forall e, response = Raise e -> places = []).
Proof.
  intros Hlimit places. subst places. unfold get_tourist_attractions.
  destruct response as [data|e]; cbn [and_then].
  2:{ repeat split; try (cbn; lia); try constructor; intros; discriminate. }
  destruct (places_loop limit (default [] (elements data)) [] ∅) as [r|e] eqn:Hr.
  - destruct (places_loop_inv _ _ _ _ _ Hr) as (H1 & H2 & H3 & new & H4 & H5).
    + cbn. lia.
    + intros n. cbn. rewrite elem_of_empty, elem_of_nil. tauto.
    + constructor.
    + constructor.
    + cbn [app] in H4. subst new.
      repeat split; try assumption.
      * intros data' [= <-]. exact H5.
      * intros data' [= <-] Hnone.
        destruct (places_loop_nothing limit _ [] ∅ Hnone) as [E | [e E]];
          congruence.
      * intros e [=].
  - repeat split; try (cbn; lia); try constructor;
      intros; first [apply sublist_nil_l | reflexivity | discriminate].
Qed.

End AttractionsProperties.

Lemma attractions_list_properties_witness :
  map Place.name (PlacesAgent.get_tourist_attractions sample_response 2)
  = [lit "Louvre"; lit "Orsay"]
  /\ Z.of_nat (length (PlacesAgent.get_tourist_attractions sample_response 2))
     <= 2.
Proof.
  split; [vm_compute; reflexivity|].
  apply (attractions_list_properties sample_response 2). lia.
Defined.

(** C8 as stated fails for a limit of zero: the limit is tested after
    the append, so the first qualifying element is kept. *)
Lemma attractions_limit_zero_exceeded :
  ~ (forall (response : result (PlacesAgent.OverpassData Z)) (limit : Z),
        Z.of_nat (length (PlacesAgent.get_tourist_attractions response limit))
        <= limit).
Proof.
  intros H. specialize (H sample_response 0).
  vm_compute in H. apply H. reflexivity.
Qed.

(** ** C3: the text taken after a matched pattern *)

(** C3 fails on the code.  The pattern is searched in the padded text
    but located with [find] in the text without padding.  For
    "I want to" the phrase " to " is found only with the help of the
    trailing pad, [find] answers -1, and the text taken starts at offset
    3 of the input instead of being empty.  For "in Paris in France" the
    first padded occurrence is at the start, but [find] locates the
    second one. *)
Theorem pattern_located_without_padding :
  let text := lit "I want to" in
  let text' := lit "in Paris in France" in
  contains (lit " to ") (padded (lower text)) = true
  /\ index_of (lit " to ") (padded (lower text)) = Some 7%nat
  /\ find (lit " to ") (lower text) = -1
  /\ after_pattern_of text (lower text) (lit " to ") = lit "ant to"
  /\ after_first_padded_occurrence text (lower text) (lit " to ") = []
  /\ _extract_place text (lower text) = Ok (lit "ant to")
  /\ index_of (lit " in ") (padded (lower text')) = Some 0%nat
  /\ find (lit " in ") (lower text') = 8
  /\ after_pattern_of text' (lower text') (lit " in ") = lit "France"
  /\ after_first_padded_occurrence text' (lower text') (lit " in ")
     = lit "Paris in France"
  /\ _extract_place text' (lower text') = Ok (lit "France").
Proof. vm_compute. repeat split; reflexivity. Qed.

(** ** Occurrences in a prefix of a text *)

Lemma starts_with_drop_take (d s : str) (q c : nat) :
  (q + length d <= c)%nat ->
  starts_with d (drop q (take c s)) = starts_with d (drop q s).
Proof.
  intros H.
  assert (E : take (length d) (drop q (take c s)) = take (length d) (drop q s)).
  { replace c with (q + (c - q))%nat by lia.
    rewrite <- take_drop_commute, take_take.
    f_equal. lia. }
  destruct (starts_with d (drop q s)) eqn:E1.
  - apply starts_with_take. rewrite E. apply starts_with_take. exact E1.
  - destruct (starts_with d (drop q (take c s))) eqn:E2; [|reflexivity].
    apply starts_with_take in E2. rewrite E in E2.
    apply starts_with_take in E2. congruence.
Qed.

Lemma starts_with_fits (d s : str) (q : nat) :
  d <> [] -> starts_with d (drop q s) = true -> (q + length d <= length s)%nat.
Proof.
  intros Hd H. apply starts_with_length in H. rewrite length_drop in H.
  destruct d; [congruence|]. cbn [length] in *. lia.
Qed.




Lemma lower_length (s : str) : length (lower s) = length s.
Proof. unfold lower. apply length_map. Qed.







(** ** Where the text taken after a pattern is the specified one *)

Lemma index_of_app_l (d s k : str) (p : nat) :
  d <> [] -> index_of d s = Some p -> index_of d (s ++ k) = Some p.
Proof.
  intros Hd H. apply index_of_Some in H as [H1 H2].
  pose proof (starts_with_fits _ _ _ Hd H1) as Hfit.
  assert (E : forall q, (q + length d <= length s)%nat ->
                        starts_with d (drop q (s ++ k))
                        = starts_with d (drop q s)).
  { intros q Hq.
    rewrite <- (starts_with_drop_take d (s ++ k) q (length s)) by exact Hq.
    rewrite take_app_length. reflexivity. }
  apply index_of_Some. split.
  - rewrite E by exact Hfit. exact H1.
  - intros q Hq. rewrite E by lia. apply H2. exact Hq.
Qed.

(** The phrase occurs inside the text, and not at its very start: the
    code takes the text after the first padded occurrence. *)
Lemma after_pattern_interior (user_input search_pattern : str) (p : nat) :
  search_pattern <> [] ->
  index_of search_pattern (lower user_input) = Some p ->
  starts_with search_pattern (padded (lower user_input)) = false ->
  after_pattern_of user_input (lower user_input) search_pattern
  = after_first_padded_occurrence user_input (lower user_input) search_pattern.
Proof.
  intros Hne Hp Hstart.
  unfold after_first_padded_occurrence, after_pattern_of, find.
  rewrite Hp.
  assert (Hq : index_of search_pattern (padded (lower user_input))
               = Some (S p)).
  { unfold padded in *. cbn [lit list_ascii_of_string app] in *.
    cbn [index_of]. rewrite Hstart.
    rewrite (index_of_app_l _ _ _ _ Hne Hp). reflexivity. }
  rewrite Hq.
  apply index_of_Some in Hp as [Hp _].
  pose proof (starts_with_fits _ _ _ Hne Hp) as Hfit.
  rewrite lower_length in Hfit.
  unfold slice_from, clamp, len. f_equal.
  replace (Z.of_nat p + Z.of_nat (length search_pattern) <? 0) with false
    by (symmetry; apply Z.ltb_ge; lia).
  lia.
Qed.

(** The phrase occurs at the very start of the text and nowhere inside:
    [find] answers -1, and the offset computed from it is the right
    one. *)
Lemma after_pattern_at_start (user_input search_pattern : str) :
  search_pattern <> [] ->
  index_of search_pattern (lower user_input) = None ->
  starts_with search_pattern (padded (lower user_input)) = true ->
  after_pattern_of user_input (lower user_input) search_pattern
  = after_first_padded_occurrence user_input (lower user_input) search_pattern.
Proof.
  intros Hne Hp Hstart.
  unfold after_first_padded_occurrence, after_pattern_of, find.
  rewrite Hp.
  assert (Hq : index_of search_pattern (padded (lower user_input))
               = Some 0%nat).
  { unfold padded in *. cbn [lit list_ascii_of_string app] in *.
    cbn [index_of]. rewrite Hstart. reflexivity. }
  rewrite Hq.
  assert (0 < length search_pattern)%nat
    by (destruct search_pattern; [congruence | cbn; lia]).
  unfold slice_from, clamp, len.
  replace (-1 + Z.of_nat (length search_pattern) <? 0) with false
    by (symmetry; apply Z.ltb_ge; lia).
  destruct (decide (length search_pattern - 1 <= length user_input)%nat).
  - f_equal. lia.
  - rewrite !drop_ge by lia. reflexivity.
Qed.

(** ** C4: the delimiter loop *)









Lemma first_offset_le (d ls : str) :
  d <> [] -> (first_offset d ls <= length ls)%nat.
Proof.
  intros Hd. unfold first_offset.
  destruct (index_of d ls) as [p|] eqn:E; cbn [default from_option id]; [|lia].
  apply index_of_Some in E as [E _].
  pose proof (starts_with_fits _ _ _ Hd E). lia.
Qed.










(** * Further properties of the code *)

(** ** Trimming *)

Lemma drop_while_is_drop (p : ascii -> bool) (s : str) :
  exists a : nat, drop_while p s = drop a s.
Proof.
  induction s as [|c s [a IH]].
  - exists 0%nat. reflexivity.
  - cbn [drop_while]. destruct (p c).
    + exists (S a). exact IH.
    + exists 0%nat. reflexivity.
Qed.

Lemma rstrip_by_is_take (p : ascii -> bool) (s : str) :
  exists b : nat, rstrip_by p s = take b s.
Proof.
  unfold rstrip_by. destruct (drop_while_is_drop p (rev s)) as [a ->].
  exists (length s - a)%nat. rewrite skipn_rev. apply rev_involutive.
Qed.

(** A stripped text is a segment of the text. *)
Lemma strip_by_segment (p : ascii -> bool) (s : str) :
  exists a b : nat, rstrip_by p (lstrip_by p s) = take b (drop a s).
Proof.
  unfold lstrip_by. destruct (drop_while_is_drop p s) as [a ->].
  destruct (rstrip_by_is_take p (drop a s)) as [b ->].
  exists a, b. reflexivity.
Qed.

Lemma drop_while_head (p : ascii -> bool) (s : str) :
  match drop_while p s with
  | [] => True
  | c :: _ => p c = false
  end.
Proof.
  induction s as [|c s IH]; [exact I|].
  cbn [drop_while]. destruct (p c) eqn:E; [exact IH | exact E].
Qed.

Lemma drop_while_id (p : ascii -> bool) (s : str) :
  match s with [] => True | c :: _ => p c = false end ->
  drop_while p s = s.
Proof. destruct s as [|c s]; [reflexivity|]. cbn. intros ->. reflexivity. Qed.

(** A text is left alone by stripping when neither its first nor its
    last character is stripped. *)
Lemma strip_by_id (p : ascii -> bool) (s : str) :
  match s with [] => True | c :: _ => p c = false end ->
  match rev s with [] => True | c :: _ => p c = false end ->
  rstrip_by p (lstrip_by p s) = s.
Proof.
  intros Hh Hl. unfold lstrip_by, rstrip_by.
  rewrite (drop_while_id p s Hh), (drop_while_id p (rev s) Hl).
  apply rev_involutive.
Qed.

Lemma strip_by_ends (p : ascii -> bool) (s : str) :
  let t := rstrip_by p (lstrip_by p s) in
  match t with [] => True | c :: _ => p c = false end
  /\ match rev t with [] => True | c :: _ => p c = false end.
Proof.
  cbn zeta. split.
  - destruct (rstrip_by_is_take p (lstrip_by p s)) as [b ->].
    pose proof (drop_while_head p s) as H. unfold lstrip_by.
    destruct (drop_while p s) as [|c u]; [rewrite take_nil; exact I|].
    destruct b; [exact I | exact H].
  - unfold rstrip_by. rewrite rev_involutive. apply drop_while_head.
Qed.

(** Stripping twice is stripping once. *)
Lemma strip_idempotent (s : str) : strip (strip s) = strip s.
Proof.
  unfold strip. destruct (strip_by_ends is_space s) as [H1 H2].
  apply strip_by_id; assumption.
Qed.

(** ** Occurrences in a segment of a text *)




(** ** The place found by the pattern loop *)

Lemma try_pattern_place (user_input user_lower : str) (p : str * str) (pl : str) :
  try_pattern user_input user_lower p = Some pl ->
  contains p.2 (padded user_lower) = true
  /\ pl = strip (truncate (after_pattern_of user_input user_lower p.2))
  /\ pl <> [].
Proof.
  unfold try_pattern.
  destruct (contains p.2 (padded user_lower)); [|discriminate].
  destruct (strip _) as [|c t] eqn:E; [discriminate|].
  intros [= <-]. repeat split. discriminate.
Qed.

Lemma pattern_loop_some (user_input user_lower : str)
    (ps : list (str * str)) (pl : str) :
  pattern_loop user_input user_lower ps = Some pl ->
  exists p, p ∈ ps /\ try_pattern user_input user_lower p = Some pl.
Proof.
  induction ps as [|p0 ps IH]; cbn [pattern_loop]; [discriminate|].
  destruct (try_pattern user_input user_lower p0) as [pl0|] eqn:E0.
  - intros [= ->]. exists p0. split; [left | exact E0].
  - intros H. destruct (IH H) as (p & Hp & Hpl).
    exists p. split; [right; exact Hp | exact Hpl].
Qed.


(** X1.  The pattern loop returns the place of the first pattern, in
    list order, that gives one; the patterns after it are not looked
    at. *)
Theorem pattern_loop_first_match (user_input user_lower : str)
    (ps : list (str * str)) (pl : str) :
  pattern_loop user_input user_lower ps = Some pl <->
  exists ps1 p ps2,
    ps = ps1 ++ p :: ps2
    /\ Forall (fun q => try_pattern user_input user_lower q = None) ps1
    /\ try_pattern user_input user_lower p = Some pl.
Proof.
  induction ps as [|p0 ps IH]; cbn [pattern_loop].
  - split; [discriminate|]. intros (ps1 & p & ps2 & E & _).
    destruct ps1; discriminate E.
  - destruct (try_pattern user_input user_lower p0) as [pl0|] eqn:E0.
    + split.
      * intros [= ->]. exists [], p0, ps. repeat split; [constructor | exact E0].
      * intros (ps1 & p & ps2 & E & Hnone & Hp).
        destruct ps1 as [|q ps1]; cbn [app] in E; injection E as -> ->.
        -- congruence.
        -- apply Forall_cons in Hnone as [Hq _]. congruence.
    + rewrite IH. split.
      * intros (ps1 & p & ps2 & -> & Hnone & Hp).
        exists (p0 :: ps1), p, ps2. repeat split; [|exact Hp].
        constructor; assumption.
      * intros (ps1 & p & ps2 & E & Hnone & Hp).
        destruct ps1 as [|q ps1]; cbn [app] in E; injection E as -> ->.
        -- congruence.
        -- apply Forall_cons in Hnone as [_ Hnone].
           exists ps1, p, ps2. repeat split; assumption.
Qed.



(** ** The place returned by [_extract_place] *)

Lemma edges_ok_word (w : str) :
  w <> [] -> forallb (fun c => negb (is_space c)) w = true -> edges_ok w.
Proof.
  intros Hne Hw. rewrite forallb_forall in Hw. split.
  - destruct w as [|c w]; [congruence|].
    apply negb_true_iff, Hw. left. reflexivity.
  - destruct (rev w) as [|c r] eqn:E.
    + apply (f_equal (@length ascii)) in E. rewrite length_rev in E.
      destruct w; [congruence | discriminate E].
    + apply negb_true_iff, Hw. apply in_rev. rewrite E. left. reflexivity.
Qed.

Lemma edges_ok_app (a m b : str) :
  edges_ok a -> edges_ok b -> edges_ok (a ++ m ++ b).
Proof.
  intros [Ha _] [_ Hb]. split.
  - destruct a as [|c a]; [contradiction | exact Ha].
  - rewrite !rev_app_distr. destruct (rev b) as [|c r]; [contradiction | exact Hb].
Qed.

Lemma edges_ok_join (sep : str) (ws : list str) :
  ws <> [] -> Forall edges_ok ws -> edges_ok (join sep ws).
Proof.
  induction ws as [|w ws IH]; [congruence|]. intros _ Hall.
  apply Forall_cons in Hall as [Hw Hws].
  destruct ws as [|w2 ws]; [exact Hw|].
  change (join sep (w :: w2 :: ws)) with (w ++ sep ++ join sep (w2 :: ws)).
  apply edges_ok_app; [exact Hw|]. apply IH; [discriminate | exact Hws].
Qed.

Lemma edges_ok_strip (s : str) : edges_ok s -> strip s = s.
Proof.
  intros [H1 H2]. unfold strip. apply strip_by_id.
  - destruct s; [exact I | exact H1].
  - destruct (rev s); [exact I | exact H2].
Qed.

Lemma forallb_segment (f : ascii -> bool) (s : str) (a b : nat) :
  forallb f s = true -> forallb f (take b (drop a s)) = true.
Proof.
  rewrite !forallb_forall. intros H c Hc. apply H.
  apply list_elem_of_In in Hc. apply list_elem_of_In.
  apply (subseteq_drop a s). eapply subseteq_take. exact Hc.
Qed.

Lemma capitalized_words_edges (user_input : str) :
  Forall edges_ok (capitalized_words user_input).
Proof.
  unfold capitalized_words. apply Forall_forall. intros w Hw.
  apply list_elem_of_In in Hw. apply filter_In in Hw as [Hw Hs].
  apply in_map_iff in Hw as (tok & <- & Htok).
  pose proof (split_words user_input) as Hall.
  rewrite Forall_forall in Hall.
  destruct (Hall tok ltac:(apply list_elem_of_In; exact Htok)) as [_ Hns].
  apply edges_ok_word.
  - intros E. rewrite E in Hs. discriminate Hs.
  - unfold strip_chars.
    destruct (strip_by_segment (mem_char punctuation) tok) as (a & b & ->).
    apply forallb_segment. exact Hns.
Qed.

(** X3.  On every input [_extract_place] returns a place, and the place
    has no white space at either end, whether it comes from a pattern or
    from the capitalised words. *)
Theorem extract_place_trimmed (user_input user_lower : str) :
  exists pl, _extract_place user_input user_lower = Ok pl /\ strip pl = pl.
Proof.
  destruct (pattern_loop user_input user_lower patterns) as [pl|] eqn:E.
  - exists pl. split.
    + unfold _extract_place. rewrite E. reflexivity.
    + apply pattern_loop_some in E as (p & _ & E).
      apply try_pattern_place in E as (_ & -> & _). apply strip_idempotent.
  - eexists. split; [apply extract_place_fallback; exact E|].
    destruct (capitalized_words user_input) as [|w ws] eqn:Ew; [reflexivity|].
    apply edges_ok_strip, edges_ok_join; [discriminate|].
    rewrite <- Ew. apply capitalized_words_edges.
Qed.

(** ** More on the orchestrator *)

Lemma intent_has_flag (user_input : str) (intent : Intent) :
  _analyze_intent user_input = Ok intent ->
  place intent <> [] ->
  needs_weather intent = true \/ needs_places intent = true.
Proof.
  unfold _analyze_intent.
  destruct (extract_place_total user_input (lower user_input)) as [pl ->].
  cbn [and_then].
  generalize (any_keyword weather_keywords (lower user_input)).
  generalize (any_keyword places_keywords (lower user_input)).
  generalize (contains (lit "plan") (lower user_input)
              && contains (lit "trip") (lower user_input)).
  intros o np nw [= <-]. cbn [place needs_weather needs_places].
  destruct pl as [|c pl], nw, np, o; cbn; intros; auto; congruence.
Qed.

Section OrchestratorFurther.
Context {num : Type} (format_num : num -> str).
Context (get_coordinates : str -> option (Location.t num)).
Context (get_weather : Location.t num -> option (WeatherInfo.t num)).
Context (get_tourist_attractions : Location.t num -> Z -> list (Place.t num)).

Local Abbreviation process_query :=
  (process_query format_num get_coordinates get_weather
     get_tourist_attractions).
Local Abbreviation weather_section := (weather_section format_num get_weather).
Local Abbreviation places_section := (places_section get_tourist_attractions).

(** X4.  When the place is geocoded, the answer is exactly the requested
    sections: the weather section alone, the places section alone, or
    the weather section, a blank line and the places section. *)
Theorem answer_is_requested_sections (user_input : str) (intent : Intent)
    (location : Location.t num) :
  _analyze_intent user_input = Ok intent ->
  place intent <> [] ->
  get_coordinates (place intent) = Some location ->
  process_query user_input
  = Ok (match needs_weather intent, needs_places intent with
        | true, true =>
            weather_section (place intent) location ++ nl ++ nl
            ++ places_section (place intent) location
        | true, false => weather_section (place intent) location
        | false, _ => places_section (place intent) location
        end).
Proof.
  intros Hi Hp Hg. pose proof (intent_has_flag _ _ Hi Hp) as Hflag.
  unfold TourismParentAgent.process_query. rewrite Hi. cbn [and_then].
  destruct (place intent) as [|c pl] eqn:E; [congruence|].
  cbn [is_empty]. rewrite Hg. unfold response_parts. rewrite E.
  destruct (needs_weather intent), (needs_places intent); cbn [app join].
  - rewrite <- app_assoc. reflexivity.
  - reflexivity.
  - reflexivity.
  - destruct Hflag; discriminate.
Qed.

(** X6.  The answer of [process_query] is never the empty text. *)
Theorem answer_never_empty (user_input : str) :
  exists response, process_query user_input = Ok response /\ response <> [].
Proof.
  unfold TourismParentAgent.process_query.
  destruct (analyze_intent_total user_input) as [intent Hi]. rewrite Hi.
  cbn [and_then].
  destruct (is_empty (place intent)) eqn:He.
  { eexists. split; [reflexivity | discriminate]. }
  destruct (get_coordinates (place intent)) as [location|].
  2:{ eexists. split; [reflexivity | discriminate]. }
  assert (Hw : forall pn loc, weather_section pn loc <> []).
  { intros pn loc. unfold TourismParentAgent.weather_section.
    destruct (get_weather loc); discriminate. }
  assert (Hs : forall pn loc, places_section pn loc <> []).
  { intros pn loc. unfold TourismParentAgent.places_section.
    destruct (get_tourist_attractions loc 5); discriminate. }
  unfold response_parts.
  specialize (Hw (place intent) location).
  specialize (Hs (place intent) location).
  destruct (weather_section (place intent) location) as [|c w];
    [congruence|].
  destruct (places_section (place intent) location) as [|c' q];
    [congruence|].
  destruct (needs_weather intent), (needs_places intent); cbn [app join];
    eexists; (split; [reflexivity | discriminate]).
Qed.


End OrchestratorFurther.

Lemma answer_is_requested_sections_witness :
  process_query sample_format sample_geocoder failing_weather sample_places
    (lit "Berlin")
  = Ok (lit "Here are some great places you can visit in Berlin:"
        ++ nl ++ lit "  1. Louvre (Museum)"
        ++ nl ++ lit "  2. Eiffel Tower (Attraction)"
        ++ nl ++ lit "  3. Arc de Triomphe (Monument)").
Proof.
  refine (answer_is_requested_sections sample_format sample_geocoder
            failing_weather sample_places (lit "Berlin")
            (mkIntent (lit "Berlin") false true)
            (Location.mk (lit "Berlin") 0 0 (lit "Berlin")) _ _ _).
  - vm_compute. reflexivity.
  - discriminate.
  - reflexivity.
Defined.


(** X5.  A child agent has no part in the answer unless it is needed:
    the weather agent when weather is not requested, the places agent
    when places are not requested, and both when the place is empty or
    is not geocoded. *)
Theorem agents_consulted_on_demand {num : Type}
    (format_num format_num' : num -> str)
    (get_coordinates : str -> option (Location.t num))
    (get_weather get_weather' : Location.t num -> option (WeatherInfo.t num))
    (get_tourist_attractions get_tourist_attractions'
       : Location.t num -> Z -> list (Place.t num))
    (user_input : str) (intent : Intent) :
  _analyze_intent user_input = Ok intent ->
  (needs_weather intent = false ->
   process_query format_num get_coordinates get_weather
     get_tourist_attractions user_input
   = process_query format_num' get_coordinates get_weather'
       get_tourist_attractions user_input)
  /\ (needs_places intent = false ->
      process_query format_num get_coordinates get_weather
        get_tourist_attractions user_input
      = process_query format_num get_coordinates get_weather
          get_tourist_attractions' user_input)
  /\ (place intent = [] \/ get_coordinates (place intent) = None ->
      process_query format_num get_coordinates get_weather
        get_tourist_attractions user_input
      = process_query format_num' get_coordinates get_weather'
          get_tourist_attractions' user_input).
Proof.
  intros Hi. unfold process_query. rewrite Hi. cbn [and_then].
  repeat split.
  - intros Hw. destruct (is_empty (place intent)); [reflexivity|].
    destruct (get_coordinates (place intent)); [|reflexivity].
    unfold response_parts. rewrite Hw. reflexivity.
  - intros Hp. destruct (is_empty (place intent)); [reflexivity|].
    destruct (get_coordinates (place intent)); [|reflexivity].
    unfold response_parts. rewrite Hp. reflexivity.
  - intros [E | E].
    + rewrite E. reflexivity.
    + rewrite E. destruct (is_empty (place intent)); reflexivity.
Qed.

Lemma agents_consulted_on_demand_witness :
  process_query sample_format sample_geocoder failing_weather sample_places
    (lit "Berlin")
  = process_query (fun _ => lit "0") sample_geocoder
      (fun _ => Some (WeatherInfo.mk 1 2 3 (lit "overcast"))) sample_places
      (lit "Berlin").
Proof.
  refine (proj1 (agents_consulted_on_demand sample_format (fun _ => lit "0")
                   sample_geocoder failing_weather
                   (fun _ => Some (WeatherInfo.mk 1 2 3 (lit "overcast")))
                   sample_places sample_places (lit "Berlin")
                   (mkIntent (lit "Berlin") false true) _) _).
  - vm_compute. reflexivity.
  - reflexivity.
Defined.

(** ** More on the list of attractions *)
Section AttractionsFurther.
Context {num : Type}.
Import PlacesAgent.

Lemma places_loop_bound (limit : Z) (elems : list (Element num)) :
  forall (places : list (Place.t num)) (seen_names : gset str)
         (r : list (Place.t num)),
    places_loop limit elems places seen_names = Ok r ->
    Z.of_nat (length places) < Z.max 1 limit ->
    Z.of_nat (length r) <= Z.max 1 limit.
Proof.
  induction elems as [|element rest IH]; intros places seen r Hr Hlen.
  - cbn [places_loop] in Hr. injection Hr as <-. lia.
  - cbn [places_loop] in Hr.
    destruct (coordinates element) as [[[la lo]|]|e]; cbn [and_then] in Hr;
      [| exact (IH _ _ _ Hr Hlen) | discriminate Hr].
    destruct (is_empty (element_name element) || _);
      [exact (IH _ _ _ Hr Hlen)|].
    destruct (Z.of_nat (length (places ++ _)) >=? limit) eqn:Hge.
    + injection Hr as <-. rewrite length_app in *. cbn [length] in *. lia.
    + apply (IH _ _ _ Hr). rewrite Z.geb_leb in Hge. apply Z.leb_gt in Hge. lia.
Qed.

(** X8.  Whatever the limit, zero and negative limits included, the
    list has at most [max 1 limit] entries: the limit is tested only
    after an append, so a limit below one still lets one entry in. *)
Theorem attractions_bound_any_limit
    (response : result (OverpassData num)) (limit : Z) :
  Z.of_nat (length (get_tourist_attractions response limit)) <= Z.max 1 limit.
Proof.
  unfold get_tourist_attractions.
  destruct response as [data|e]; cbn [and_then]; [|cbn; lia].
  destruct (places_loop limit (default [] (elements data)) [] ∅) as [r|e] eqn:Hr;
    [|cbn; lia].
  apply (places_loop_bound _ _ _ _ _ Hr). cbn. lia.
Qed.

(** The loop on a list followed by more elements: an exception in the
    first part ends the loop, and when the first part is gone through
    without reaching the limit the loop goes on with the rest. *)
Lemma places_loop_app (limit : Z) (rest : list (Element num))
    (elems1 : list (Element num)) :
  forall (places : list (Place.t num)) (seen_names : gset str),
    match places_loop limit elems1 places seen_names with
    | Raise e => places_loop limit (elems1 ++ rest) places seen_names = Raise e
    | Ok r =>
        Z.of_nat (length r) < Z.max 1 limit ->
        exists seen', places_loop limit (elems1 ++ rest) places seen_names
                      = places_loop limit rest r seen'
    end.
Proof.
  induction elems1 as [|element tl IH]; intros places seen.
  - cbn [places_loop app]. intros _. exists seen. reflexivity.
  - cbn [places_loop app].
    destruct (coordinates element) as [[[la lo]|]|e]; cbn [and_then];
      [| apply IH | reflexivity].
    destruct (is_empty (element_name element) || _); [apply IH|].
    destruct (Z.of_nat (length (places ++ _)) >=? limit) eqn:Hge; [|apply IH].
    intros Hlen. exfalso.
    rewrite Z.geb_leb in Hge. apply Z.leb_le in Hge.
    rewrite length_app in *. cbn [length] in *. lia.
Qed.

(** X9.  An element whose coordinates cannot be read (a [center] object
    without [lat] or [lon]) makes the whole answer empty when it is met
    before the loop has stopped at the limit, that is, when the elements
    before it alone give fewer than [max 1 limit] places: the places
    collected before it are lost with it. *)
Theorem malformed_element_empties_list
    (elems1 elems2 : list (Element num)) (bad : Element num) (e : exn)
    (limit : Z) :
  coordinates bad = Raise e ->
  Z.of_nat (length (get_tourist_attractions (Ok (mkData (Some elems1))) limit))
  < Z.max 1 limit ->
  get_tourist_attractions (Ok (mkData (Some (elems1 ++ bad :: elems2)))) limit
  = [].
Proof.
  intros Hbad. unfold get_tourist_attractions.
  cbn [and_then elements default from_option id].
  pose proof (places_loop_app limit (bad :: elems2) elems1 [] ∅) as H.
  destruct (places_loop limit elems1 [] ∅) as [r|e'].
  - intros Hlen. destruct (H Hlen) as [seen' ->].
    cbn [places_loop]. rewrite Hbad. reflexivity.
  - intros _. rewrite H. reflexivity.
Qed.

Lemma places_loop_complete (limit : Z) (elems : list (Element num)) :
  forall (places : list (Place.t num)) (seen_names : gset str)
         (r : list (Place.t num)),
    places_loop limit elems places seen_names = Ok r ->
    (forall n, n ∈ seen_names <-> n ∈ map Place.name places) ->
    Z.of_nat (length r) < limit ->
    (forall n, n ∈ map Place.name places -> n ∈ map Place.name r)
    /\ (forall element, element ∈ elems -> qualifies element = true ->
          element_name element ∈ map Place.name r).
Proof.
  induction elems as [|element rest IH]; intros places seen r Hr Hseen Hlen.
  - cbn [places_loop] in Hr. injection Hr as <-. split; [auto|].
    intros el Hel. apply elem_of_nil in Hel. contradiction.
  - cbn [places_loop] in Hr. unfold qualifies.
    destruct (coordinates element) as [[[la lo]|]|e] eqn:Hco;
      cbn [and_then] in Hr; [| |discriminate Hr].
    2:{ destruct (IH _ _ _ Hr Hseen Hlen) as [H1 H2]. split; [exact H1|].
        intros el Hel Hq. apply elem_of_cons in Hel as [-> | Hel].
        - rewrite Hco in Hq. discriminate Hq.
        - apply H2; assumption. }
    destruct (is_empty (element_name element)) eqn:Hempty; cbn [orb] in Hr.
    { destruct (IH _ _ _ Hr Hseen Hlen) as [H1 H2]. split; [exact H1|].
      intros el Hel Hq. apply elem_of_cons in Hel as [-> | Hel].
      - rewrite Hco, Hempty in Hq. discriminate Hq.
      - apply H2; assumption. }
    destruct (bool_decide (element_name element ∈ seen)) eqn:Hin.
    { destruct (IH _ _ _ Hr Hseen Hlen) as [H1 H2]. split; [exact H1|].
      intros el Hel Hq. apply elem_of_cons in Hel as [-> | Hel].
      - apply H1, Hseen. apply bool_decide_eq_true in Hin. exact Hin.
      - apply H2; assumption. }
    set (P := Place.mk (element_name element)
                (title (replace_char "_" " " (attraction_type element))) la lo) in *.
    destruct (Z.of_nat (length (places ++ [P])) >=? limit) eqn:Hge.
    { injection Hr as <-. rewrite Z.geb_leb in Hge. apply Z.leb_le in Hge. lia. }
    assert (Hseen' : forall n, n ∈ ({[element_name element]} ∪ seen : gset str)
                               <-> n ∈ map Place.name (places ++ [P])).
    { intros n. rewrite map_app, elem_of_app, elem_of_union, elem_of_singleton.
      cbn [map]. rewrite list_elem_of_singleton, Hseen. cbn. tauto. }
    destruct (IH _ _ _ Hr Hseen' Hlen) as [H1 H2]. split.
    + intros n Hn. apply H1. rewrite map_app, elem_of_app. left. exact Hn.
    + intros el Hel Hq. apply elem_of_cons in Hel as [-> | Hel].
      * apply H1. rewrite map_app, elem_of_app. right. cbn. left.
      * apply H2; assumption.
Qed.

Lemma places_loop_returns (limit : Z) (elems : list (Element num)) :
  Forall (fun element => exists c, coordinates element = Ok c) elems ->
  forall (places : list (Place.t num)) (seen_names : gset str),
    exists r, places_loop limit elems places seen_names = Ok r.
Proof.
  induction 1 as [|element rest [c Hc] _ IH]; intros places seen.
  - eexists. reflexivity.
  - cbn [places_loop]. rewrite Hc. cbn [and_then].
    destruct c as [[la lo]|]; [|apply IH].
    destruct (is_empty (element_name element) || _); [apply IH|].
    destruct (Z.of_nat (length (places ++ _)) >=? limit);
      [eexists; reflexivity | apply IH].
Qed.

(** X10.  Nothing is dropped before the limit is reached: when the
    coordinates of every element can be read and the list returned has
    fewer than [limit] entries, the name of every element that has
    coordinates and a non-empty name is in the list. *)
Theorem attractions_complete_below_limit
    (data : OverpassData num) (limit : Z) (element : Element num) :
  Forall (fun el => exists c, coordinates el = Ok c)
         (default [] (elements data)) ->
  Z.of_nat (length (get_tourist_attractions (Ok data) limit)) < limit ->
  element ∈ default [] (elements data) ->
  qualifies element = true ->
  element_name element
    ∈ map Place.name (get_tourist_attractions (Ok data) limit).
Proof.
  intros Hok. unfold get_tourist_attractions. cbn [and_then].
  destruct (places_loop_returns limit _ Hok [] ∅) as [r Hr]. rewrite Hr.
  intros Hlen Hel Hq.
  eapply (places_loop_complete _ _ _ _ _ Hr); [|exact Hlen | exact Hel | exact Hq].
  intros n. cbn. rewrite elem_of_empty, elem_of_nil. tauto.
Qed.

End AttractionsFurther.

Lemma malformed_element_empties_list_witness :
  PlacesAgent.coordinates broken_element = Raise KeyError
  /\ map Place.name
       (PlacesAgent.get_tourist_attractions
          (Ok (PlacesAgent.mkData
                 (Some [ named_element "Louvre"; named_element "Louvre";
                         named_element "" ])))
          2)
     = [lit "Louvre"]
  /\ PlacesAgent.get_tourist_attractions
       (Ok (PlacesAgent.mkData
              (Some ([ named_element "Louvre"; named_element "Louvre";
                       named_element "" ]
                     ++ broken_element :: [named_element "Orsay"]))))
       2
     = [].
Proof.
  split; [reflexivity|].
  split; [vm_compute; reflexivity|].
  apply (malformed_element_empties_list
           [ named_element "Louvre"; named_element "Louvre"; named_element "" ]
           [named_element "Orsay"] broken_element KeyError 2).
  - reflexivity.
  - vm_compute. reflexivity.
Defined.

Lemma attractions_complete_below_limit_witness :
  lit "Rodin"
    ∈ map Place.name
        (PlacesAgent.get_tourist_attractions
           (Ok (PlacesAgent.mkData
                  (Some [ named_element "Louvre"; named_element "";
                          named_element "Louvre"; named_element "Orsay";
                          named_element "Rodin" ])))
           5).
Proof.
  apply (attractions_complete_below_limit
           (PlacesAgent.mkData
              (Some [ named_element "Louvre"; named_element "";
                      named_element "Louvre"; named_element "Orsay";
                      named_element "Rodin" ]))
           5 (named_element "Rodin")).
  - repeat constructor; eexists; reflexivity.
  - vm_compute. reflexivity.
  - cbn. do 4 right. left.
  - vm_compute. reflexivity.
Defined.

(** ** The weather agent *)

(** X11.  The description of a weather code is "unknown weather" exactly
    when the code is not one of the twenty-four listed codes. *)
Theorem unknown_weather_iff_unlisted (code : Z) :
  WeatherAgent._get_weather_description code = lit "unknown weather"
  <-> code ∉ known_weather_codes.
Proof.
  unfold WeatherAgent._get_weather_description, WeatherAgent.weather_codes.
  change known_weather_codes with (WeatherAgent.weather_code_table.*1).
  destruct (list_to_map WeatherAgent.weather_code_table !! code) as [d|] eqn:E.
  - cbn [default from_option id].
    apply (elem_of_list_to_map_2 (M := gmap Z)) in E.
    split.
    + intros ->. exfalso. revert E.
      assert (Hall : Forall (fun kv : Z * str => kv.2 <> lit "unknown weather")
                       WeatherAgent.weather_code_table)
        by (repeat constructor; discriminate).
      rewrite Forall_forall in Hall. intros E.
      apply (Hall _ E). reflexivity.
    + intros Hn. exfalso. apply Hn.
      apply list_elem_of_fmap. exists (code, d). split; [reflexivity | exact E].
  - cbn [default from_option id]. split; [|reflexivity]. intros _.
    apply (not_elem_of_list_to_map_2 (M := gmap Z)). exact E.
Qed.

(** ** The geocoding agent *)

(** X12.  A location returned by [get_coordinates] carries the place
    name that was asked for, not a name of the provider, and is made
    from the first result alone: the other results play no part. *)
Theorem geocode_uses_first_result {num : Type} (float : str -> result num)
    (response : result (list GeocodeAgent.GeoResult))
    (place_name : str) (location : Location.t num) :
  GeocodeAgent.get_coordinates float response place_name = Some location ->
  Location.name location = place_name
  /\ exists first rest,
       response = Ok (first :: rest)
       /\ GeocodeAgent.display_name first
          = Some (Location.display_name location)
       /\ forall others,
            GeocodeAgent.get_coordinates float (Ok (first :: others)) place_name
            = Some location.
Proof.
  unfold GeocodeAgent.get_coordinates.
  destruct response as [[|first rest]|e]; try discriminate.
  destruct (GeocodeAgent.lat first) as [la|] eqn:E1;
    cbn [PlacesAgent.subscript and_then]; [|discriminate].
  destruct (float la) as [x|e] eqn:E2; cbn [and_then]; [|discriminate].
  destruct (GeocodeAgent.lon first) as [lo|] eqn:E3;
    cbn [PlacesAgent.subscript and_then]; [|discriminate].
  destruct (float lo) as [y|e] eqn:E4; cbn [and_then]; [|discriminate].
  destruct (GeocodeAgent.display_name first) as [dn|] eqn:E5;
    cbn [PlacesAgent.subscript and_then]; [|discriminate].
  intros [= <-]. split; [reflexivity|].
  exists first, rest. split; [reflexivity|]. split; [exact E5|].
  intros others. rewrite E1. cbn [PlacesAgent.subscript and_then].
  rewrite E2. cbn [and_then]. rewrite E3.
  cbn [PlacesAgent.subscript and_then]. rewrite E4. cbn [and_then].
  rewrite E5. reflexivity.
Qed.

Lemma geocode_uses_first_result_witness :
  Location.name (Location.mk (lit "Paris") 0 0 (lit "Paris, France"))
  = lit "Paris"
  /\ exists first rest,
       Ok [ GeocodeAgent.mkGeoResult (Some (lit "48.85")) (Some (lit "2.35"))
              (Some (lit "Paris, France")) ]
       = Ok (first :: rest)
       /\ GeocodeAgent.display_name first
          = Some (Location.display_name
                    (Location.mk (lit "Paris") 0 0 (lit "Paris, France")))
       /\ forall others,
            GeocodeAgent.get_coordinates sample_float (Ok (first :: others))
              (lit "Paris")
            = Some (Location.mk (lit "Paris") 0 0 (lit "Paris, France")).
Proof.
  apply (geocode_uses_first_result sample_float
           (Ok [ GeocodeAgent.mkGeoResult (Some (lit "48.85"))
                   (Some (lit "2.35")) (Some (lit "Paris, France")) ])
           (lit "Paris")).
  reflexivity.
Defined.

(** ** The assembled agent *)


Section AssembledProperties.
Context {num : Type} (zero : num) (format_num : num -> str).
Context (float : str -> result num).
Context (geocode_request : str -> result (list GeocodeAgent.GeoResult)).
Context (weather_request
           : Location.t num -> result (WeatherAgent.Forecast num)).
Context (places_request
           : Location.t num -> Z -> result (PlacesAgent.OverpassData num)).

Local Abbreviation agent_process_query :=
  (Main.agent_process_query zero format_num float geocode_request
     weather_request places_request).
Local Abbreviation weather_agent := (Main.weather_agent zero weather_request).
Local Abbreviation places_agent := (Main.places_agent places_request).

(** X13.  When the geocoding request fails, finds nothing, or its first
    result lacks one of the keys [lat], [lon] and [display_name], the
    answer for an input with a place is the place-not-found message
    naming that place; the weather and places requests play no part. *)
Theorem nothing_geocoded_place_not_found (user_input : str) (intent : Intent) :
  _analyze_intent user_input = Ok intent ->
  place intent <> [] ->
  (exists e, geocode_request (place intent) = Raise e)
  \/ geocode_request (place intent) = Ok []
  \/ (exists first rest,
        geocode_request (place intent) = Ok (first :: rest)
        /\ (GeocodeAgent.lat first = None
            \/ GeocodeAgent.lon first = None
            \/ GeocodeAgent.display_name first = None)) ->
  agent_process_query user_input
  = Ok (place_not_found_message (place intent)).
Proof.
  intros Hi Hp Hg.
  assert (Hnone : Main.geocode_agent float geocode_request (place intent) = None).
  { unfold Main.geocode_agent, GeocodeAgent.get_coordinates.
    destruct Hg as [[e ->] | [-> | (first & rest & -> & Hmiss)]];
      [reflexivity | reflexivity |].
    destruct (GeocodeAgent.lat first) as [la|];
      cbn [PlacesAgent.subscript and_then]; [|reflexivity].
    destruct (float la); cbn [and_then]; [|reflexivity].
    destruct (GeocodeAgent.lon first) as [lo|];
      cbn [PlacesAgent.subscript and_then]; [|reflexivity].
    destruct (float lo); cbn [and_then]; [|reflexivity].
    destruct (GeocodeAgent.display_name first);
      cbn [PlacesAgent.subscript and_then]; [|reflexivity].
    destruct Hmiss as [H | [H | H]]; discriminate H. }
  unfold Main.agent_process_query, process_query.
  rewrite Hi. cbn [and_then].
  destruct (place intent) as [|c pl] eqn:E; [congruence|].
  cbn [is_empty]. rewrite Hnone. reflexivity.
Qed.


(** X15.  In the assembled agent the places section is the apology when
    the places request failed or gave nothing usable, and otherwise
    lists between one and five attractions, with non-empty names that
    are pairwise distinct. *)
Theorem places_section_lists_at_most_five
    (place_name : str) (location : Location.t num) :
  let places := places_agent location 5 in
  ((exists e, places_request location 5 = Raise e) -> places = [])
  /\ ((places = []
       /\ places_section places_agent place_name location
          = places_apology place_name)
      \/ (places <> []
          /\ places_section places_agent place_name location
             = places_text place_name places
          /\ (length places <= 5)%nat
          /\ NoDup (map Place.name places)
          /\ Forall (fun p => Place.name p <> []) places)).
Proof.
  cbn zeta. unfold places_section.
  split.
  { intros [e He]. unfold Main.places_agent. rewrite He. reflexivity. }
  destruct (Main.places_agent places_request location 5) as [|p ps] eqn:E;
    [left; split; reflexivity|].
  right. split; [discriminate|]. split; [reflexivity|].
  unfold Main.places_agent, PlacesAgent.get_tourist_attractions in E.
  destruct (places_request location 5) as [data|e]; cbn [and_then] in E;
    [|discriminate E].
  destruct (PlacesAgent.places_loop 5 _ [] ∅) as [r|e] eqn:Hr;
    [|discriminate E].
  subst r.
  destruct (places_loop_inv _ _ _ _ _ Hr) as (H1 & H2 & H3 & _).
  - cbn. lia.
  - intros n. cbn. rewrite elem_of_empty, elem_of_nil. tauto.
  - constructor.
  - constructor.
  - repeat split; [lia | exact H2 | exact H3].
Qed.

End AssembledProperties.

Lemma nothing_geocoded_place_not_found_witness :
  Main.agent_process_query 0 sample_format sample_float geocode_nothing
    weather_down places_down (lit "Berlin")
  = Ok (place_not_found_message (lit "Berlin")).
Proof.
  apply (nothing_geocoded_place_not_found 0 sample_format sample_float
           geocode_nothing weather_down places_down (lit "Berlin")
           (mkIntent (lit "Berlin") false true)).
  - vm_compute. reflexivity.
  - discriminate.
  - right. left. reflexivity.
Defined.


(** ** The command loop *)
Section MainProperties.
Context {num : Type} (format_num : num -> str).
Context (get_coordinates : str -> option (Location.t num)).
Context (get_weather : Location.t num -> option (WeatherInfo.t num)).
Context (get_tourist_attractions : Location.t num -> Z -> list (Place.t num)).

Local Abbreviation agent :=
  (process_query format_num get_coordinates get_weather
     get_tourist_attractions).




End MainProperties.



(** ** The category of an attraction *)

Lemma upper_char_not_underscore (c : ascii) :
  c <> "_"%char -> upper_char c <> "_"%char.
Proof.
  destruct c as [[] [] [] [] [] [] [] []]; vm_compute; congruence.
Qed.

Lemma lower_char_not_underscore (c : ascii) :
  c <> "_"%char -> lower_char c <> "_"%char.
Proof.
  destruct c as [[] [] [] [] [] [] [] []]; vm_compute; congruence.
Qed.

Lemma title_from_no_underscore (prev_cased : bool) (s : str) :
  "_"%char ∉ s -> "_"%char ∉ title_from prev_cased s.
Proof.
  revert prev_cased. induction s as [|c s IH]; intros prev_cased H.
  - exact H.
  - cbn [title_from]. apply not_elem_of_cons in H as [Hc Hs].
    apply not_elem_of_cons. split; [|apply IH; exact Hs].
    intros E. symmetry in E. revert E.
    destruct prev_cased;
      [apply lower_char_not_underscore | apply upper_char_not_underscore];
      congruence.
Qed.

Lemma replace_underscore_gone (s : str) :
  "_"%char ∉ replace_char "_" " " s.
Proof.
  unfold replace_char. induction s as [|c s IH]; cbn [map].
  - apply not_elem_of_nil.
  - apply not_elem_of_cons. split; [|exact IH].
    destruct (decide (c = "_"%char)); [discriminate | congruence].
Qed.

Section AttractionTypes.
Context {num : Type}.
Import PlacesAgent.

Lemma places_loop_types (limit : Z) (elems : list (Element num)) :
  forall (places : list (Place.t num)) (seen_names : gset str)
         (r : list (Place.t num)),
    places_loop limit elems places seen_names = Ok r ->
    Forall (fun p => "_"%char ∉ Place.type p) places ->
    Forall (fun p => "_"%char ∉ Place.type p) r.
Proof.
  induction elems as [|element rest IH]; intros places seen r Hr Hty.
  - cbn [places_loop] in Hr. injection Hr as <-. exact Hty.
  - cbn [places_loop] in Hr.
    destruct (coordinates element) as [[[la lo]|]|e]; cbn [and_then] in Hr;
      [| exact (IH _ _ _ Hr Hty) | discriminate Hr].
    destruct (is_empty (element_name element) || _);
      [exact (IH _ _ _ Hr Hty)|].
    assert (Hty' : Forall (fun p : Place.t num => "_"%char ∉ Place.type p)
                     (places
                      ++ [Place.mk (element_name element)
                            (title (replace_char "_" " "
                                      (attraction_type element))) la lo])).
    { apply Forall_app. split; [exact Hty|].
      constructor; [|constructor]. cbn [Place.type].
      apply title_from_no_underscore, replace_underscore_gone. }
    destruct (Z.of_nat (length (places ++ _)) >=? limit).
    + injection Hr as <-. exact Hty'.
    + exact (IH _ _ _ Hr Hty').
Qed.

(** X18.  The category of a returned attraction never contains an
    underscore: the provider's tag value has its underscores replaced by
    spaces before it is put in title case. *)
Theorem attraction_type_has_no_underscore
    (response : result (OverpassData num)) (limit : Z) :
  Forall (fun p => "_"%char ∉ Place.type p)
         (get_tourist_attractions response limit).
Proof.
  unfold get_tourist_attractions.
  destruct response as [data|e]; cbn [and_then]; [|constructor].
  destruct (places_loop limit (default [] (elements data)) [] ∅) as [r|e] eqn:Hr;
    [|constructor].
  apply (places_loop_types _ _ _ _ _ Hr). constructor.
Qed.

End AttractionTypes.
